(** * The RSA key handle of libcryptopen

  A shallow embedding of [cryptopen::pkey::rsa_key]
  (include/cryptoplus/pkey/rsa_key.hpp): a handle that shares one RSA
  record of the cryptographic library between all its copies, and
  forwards every operation to that library, turning the library's
  failure returns into exceptions.

  Layout of the development:
  - bytes and the unsigned big numbers of the library;
  - the PKCS #1 v1.5 block formats and the RSA transforms on a record;
  - the world (records, share counts, error queue) and the outcome of
    a call;
  - the class [rsa_key] itself;
  - the properties. *)

From Stdlib Require Import ZArith NArith Lia List Strings.Byte String.
From Stdlib Require Import Znumtheory Zpow_facts Zmod.Zstar.
From stdpp Require Import gmap.

Local Open Scope Z_scope.

(* ================================================================== *)
(** * Bytes and big numbers

    The BIGNUM functions belong to the cryptographic library, an
    external collaborator (spec 1). They are written here as their
    manual pages describe them. *)

Module BN.

(** A BIGNUM of a key record is an unsigned magnitude. *)
Definition BIGNUM := N.

Definition byte_of_N (x : N) : byte :=
  match Byte.of_N (x mod 256) with
  | Some b => b
  | None => x00
  end.

(** Little-endian digits, the recursion the two conversions share. *)
Fixpoint le_to_N (s : list byte) : N :=
  match s with
  | [] => 0
  | b :: s' => Byte.to_N b + 256 * le_to_N s'
  end%N.

Fixpoint N_to_le (len : nat) (a : N) : list byte :=
  match len with
  | O => []
  | S len' => byte_of_N a :: N_to_le len' (a / 256)
  end.

(** [BN_bin2bn]: big-endian bytes to a number. *)
Definition BN_bin2bn (s : list byte) : BIGNUM := le_to_N (rev s).

(** [BN_bn2bin] into a buffer of exactly [len] bytes, zeros in front:
    the layout the RSA transforms write. *)
Definition BN_bn2binpad (a : BIGNUM) (len : nat) : list byte :=
  rev (N_to_le len a).

(** [BN_num_bits]: 0 for 0, else the position of the top bit plus 1. *)
Definition BN_num_bits (a : BIGNUM) : Z := Z.of_N (N.size a).

(** [BN_num_bytes(a)] is the macro [(BN_num_bits(a)+7)/8]. *)
Definition BN_num_bytes (a : BIGNUM) : Z := (BN_num_bits a + 7) / 8.

(** [BN_mod_exp]: [a^p mod m] by square and multiply. *)
Definition BN_mod_exp (a p m : BIGNUM) : BIGNUM :=
  Z.to_N (Zpow_mod (Z.of_N a) (Z.of_N p) (Z.of_N m)).

(** Modelled from the spec: the primality test of the library, which
    [RSA_check_key] runs on the two primes. The library runs a
    probabilistic test; this is the answer that test approximates, by
    trial division up to the square root. *)
Fixpoint no_divisor (fuel : nat) (d p : Z) : bool :=
  match fuel with
  | O => true
  | S fuel' =>
      if p <? d * d then true
      else if p mod d =? 0 then false
      else no_divisor fuel' (d + 1) p
  end.

Definition BN_is_prime (p : BIGNUM) : bool :=
  (1 <? Z.of_N p) && no_divisor (Z.to_nat (Z.sqrt (Z.of_N p))) 2 (Z.of_N p).

End BN.
Import BN.

(* ================================================================== *)
(** * PKCS #1 v1.5 block type 1 *)

Module PKCS1.

(** [RSA_PKCS1_PADDING_SIZE] *)
Definition RSA_PKCS1_PADDING_SIZE : nat := 11.

(** Modelled from the spec: [RSA_padding_add_PKCS1_type_1(to, tlen,
    from, flen)] of the library, the PKCS #1 v1.5 padding whose 11 bytes
    of overhead spec 4.5 counts: [00 01 FF .. FF 00 data], refused when
    the data leaves no room for eight bytes of [FF]. *)
Definition RSA_padding_add_PKCS1_type_1 (tlen : nat) (from : list byte)
  : option (list byte) :=
  if (tlen <? length from + RSA_PKCS1_PADDING_SIZE)%nat then None
  else Some (x00 :: x01 :: repeat xff (tlen - 3 - length from) ++ x00 :: from).

(** Counts the leading [FF] bytes and returns what follows them. *)
Fixpoint skip_ff (s : list byte) : nat * list byte :=
  match s with
  | xff :: s' => let (i, rest) := skip_ff s' in (S i, rest)
  | _ => (O, s)
  end.

(** Modelled from the spec: [RSA_padding_check_PKCS1_type_1] of the
    library, the inverse walk over a block; a block of another shape is
    the padding-check failure of spec 4.5. *)
Definition RSA_padding_check_PKCS1_type_1 (em : list byte)
  : option (list byte) :=
  match em with
  | x00 :: x01 :: ps =>
      match skip_ff ps with
      | (i, x00 :: data) => if (i <? 8)%nat then None else Some data
      | _ => None
      end
  | _ => None
  end.

End PKCS1.
Import PKCS1.

(* ================================================================== *)
(** * The RSA record and the transforms of the library

    Modelled from the spec: the key-material record and the RSA
    primitives are the cryptographic library's, not this repository's
    (spec 1 and 6). They are written here after the standard the header
    cites for them (PKCS #1, and the manual pages RSA_private_encrypt(3),
    RSA_sign(3), RSA_check_key(3), RSA_size(3), RSA_blinding_on(3)). *)

Module OpenSSL.

(** Modelled from the spec: the key-material record, [struct rsa_st]
    of the library (spec 2 and glossary): the modulus and the public
    exponent, and what the record may leave out: the private exponent,
    the two primes and the CRT parameters. [rsa_blinding] is the
    blinding state that [RSA_blinding_on] sets. *)
Record RSA := mkRSA {
  rsa_n : BIGNUM;
  rsa_e : BIGNUM;
  rsa_d : option BIGNUM;
  rsa_p : option BIGNUM;
  rsa_q : option BIGNUM;
  rsa_dmp1 : option BIGNUM;
  rsa_dmq1 : option BIGNUM;
  rsa_iqmp : option BIGNUM;
  rsa_blinding : bool
}.

(** What [RSA_new] hands out: no key parameter set. *)
Definition RSA_empty : RSA :=
  mkRSA 0%N 0%N None None None None None None false.

Definition set_blinding (b : bool) (r : RSA) : RSA :=
  mkRSA (rsa_n r) (rsa_e r) (rsa_d r) (rsa_p r) (rsa_q r)
        (rsa_dmp1 r) (rsa_dmq1 r) (rsa_iqmp r) b.

(** The reasons the library queues when a call fails. *)
Inductive ERR : Set :=
| ERR_R_MALLOC_FAILURE
| ERR_R_PEM_LIB
| RSA_R_VALUE_MISSING
| RSA_R_P_NOT_PRIME
| RSA_R_Q_NOT_PRIME
| RSA_R_N_DOES_NOT_EQUAL_P_Q
| RSA_R_D_E_NOT_CONGRUENT_TO_1
| RSA_R_DMP1_NOT_CONGRUENT_TO_D
| RSA_R_DMQ1_NOT_CONGRUENT_TO_D
| RSA_R_IQMP_NOT_INVERSE_OF_Q
| RSA_R_UNKNOWN_PADDING_TYPE
| RSA_R_DATA_TOO_LARGE_FOR_KEY_SIZE
| RSA_R_DATA_TOO_LARGE_FOR_MODULUS
| RSA_R_DATA_TOO_SMALL_FOR_KEY_SIZE
| RSA_R_DATA_GREATER_THAN_MOD_LEN
| RSA_R_PADDING_CHECK_FAILED
| RSA_R_MISSING_PRIVATE_KEY
| RSA_R_UNKNOWN_ALGORITHM_TYPE
| RSA_R_INVALID_DIGEST_LENGTH
| RSA_R_DIGEST_TOO_BIG_FOR_RSA_KEY
| RSA_R_WRONG_SIGNATURE_LENGTH
| RSA_R_BAD_SIGNATURE
| RSA_R_KEY_GENERATION_FAILED.

(** Modelled from the spec: [RSA_size] of the library, the modulus
    size in bytes (spec 4.4), which the library computes as
    [BN_num_bytes] of the modulus. *)
Definition RSA_size (r : RSA) : Z := BN_num_bytes (rsa_n r).

(** ** [RSA_check_key] *)

Definition check_crt (r : RSA) (d p q : BIGNUM) : list ERR :=
  match rsa_dmp1 r, rsa_dmq1 r, rsa_iqmp r with
  | Some dmp1, Some dmq1, Some iqmp =>
      (if Z.of_N dmp1 =? Z.of_N d mod (Z.of_N p - 1)
       then [] else [RSA_R_DMP1_NOT_CONGRUENT_TO_D]) ++
      (if Z.of_N dmq1 =? Z.of_N d mod (Z.of_N q - 1)
       then [] else [RSA_R_DMQ1_NOT_CONGRUENT_TO_D]) ++
      (if (Z.of_N iqmp <? Z.of_N p) &&
          ((Z.of_N iqmp * Z.of_N q) mod Z.of_N p =? 1)
       then [] else [RSA_R_IQMP_NOT_INVERSE_OF_Q])
  | _, _, _ => []
  end.

(** Modelled from the spec: the tests of [RSA_check_key] of the
    library (spec 4.4, RSA_check_key(3)): private material present, [p]
    and [q] prime, [n = p * q], [d * e = 1] modulo [lcm (p-1) (q-1)],
    and the CRT parameters, when present, consistent with them. The
    reasons are queued in this order; none means the key passed. *)
Definition check_key_errors (r : RSA) : list ERR :=
  match rsa_p r, rsa_q r, rsa_d r with
  | Some p, Some q, Some d =>
      (if BN_is_prime p then [] else [RSA_R_P_NOT_PRIME]) ++
      (if BN_is_prime q then [] else [RSA_R_Q_NOT_PRIME]) ++
      (if (rsa_n r =? p * q)%N then [] else [RSA_R_N_DOES_NOT_EQUAL_P_Q]) ++
      (if (Z.of_N d * Z.of_N (rsa_e r))
            mod Z.lcm (Z.of_N p - 1) (Z.of_N q - 1) =? 1
       then [] else [RSA_R_D_E_NOT_CONGRUENT_TO_1]) ++
      check_crt r d p q
  | _, _, _ => [RSA_R_VALUE_MISSING]
  end.

(** Modelled from the spec: [RSA_check_key] returns 1 for a valid key
    and 0 otherwise, with the reasons. *)
Definition RSA_check_key (r : RSA) : Z * list ERR :=
  match check_key_errors r with
  | [] => (1, [])
  | errs => (0, errs)
  end.

(** ** Encryption with the private key, decryption with the public one *)

Definition RSA_PKCS1_PADDING : Z := 1.
Definition RSA_NO_PADDING : Z := 3.

(** Modelled from the spec: [RSA_private_encrypt(flen, from, to, rsa,
    padding)] of the library (spec 4.5, RSA_private_encrypt(3)): pads to
    the modulus size, applies the private exponent, and writes
    [RSA_size] bytes. [inl] is the return of -1 with the reason queued:
    input too long for the padding, no private material. The CRT
    parameters give the same number as [d] on a consistent key, so the
    transform is written with [d]; blinding does not change the result.
    Of the padding modes, PKCS #1 v1.5 and no padding are written out. *)
Definition RSA_private_encrypt (from : list byte) (r : RSA) (padding : Z)
  : ERR + list byte :=
  let num := Z.to_nat (RSA_size r) in
  let block :=
    if padding =? RSA_PKCS1_PADDING then
      match RSA_padding_add_PKCS1_type_1 num from with
      | Some em => inr em
      | None => inl RSA_R_DATA_TOO_LARGE_FOR_KEY_SIZE
      end
    else if padding =? RSA_NO_PADDING then
      if (num <? length from)%nat then inl RSA_R_DATA_TOO_LARGE_FOR_KEY_SIZE
      else if (length from <? num)%nat
           then inl RSA_R_DATA_TOO_SMALL_FOR_KEY_SIZE
           else inr from
    else inl RSA_R_UNKNOWN_PADDING_TYPE in
  match block with
  | inl e => inl e
  | inr em =>
      let f := BN_bin2bn em in
      if (rsa_n r <=? f)%N then inl RSA_R_DATA_TOO_LARGE_FOR_MODULUS
      else match rsa_d r with
           | None => inl RSA_R_MISSING_PRIVATE_KEY
           | Some d => inr (BN_bn2binpad (BN_mod_exp f d (rsa_n r)) num)
           end
  end.

(** Modelled from the spec: [RSA_public_decrypt(flen, from, to, rsa,
    padding)] of the library (spec 4.5): applies the public exponent and
    takes the padding off; corrupted input and a failed padding check
    are failures. *)
Definition RSA_public_decrypt (from : list byte) (r : RSA) (padding : Z)
  : ERR + list byte :=
  let num := Z.to_nat (RSA_size r) in
  if (num <? length from)%nat then inl RSA_R_DATA_GREATER_THAN_MOD_LEN
  else
    let f := BN_bin2bn from in
    if (rsa_n r <=? f)%N then inl RSA_R_DATA_TOO_LARGE_FOR_MODULUS
    else
      let em := BN_bn2binpad (BN_mod_exp f (rsa_e r) (rsa_n r)) num in
      if padding =? RSA_PKCS1_PADDING then
        match RSA_padding_check_PKCS1_type_1 em with
        | Some data => inr data
        | None => inl RSA_R_PADDING_CHECK_FAILED
        end
      else if padding =? RSA_NO_PADDING then inr em
      else inl RSA_R_UNKNOWN_PADDING_TYPE.

(** ** Signatures *)

Definition NID_md5 : Z := 4.
Definition NID_sha1 : Z := 64.
Definition NID_ripemd160 : Z := 117.

(** Modelled from the spec: the recognized digest algorithms (spec 6),
    the three the header names for [sign]: for each, the DER bytes that
    precede the digest in a [DigestInfo] of PKCS #1, and the length of
    the digest. *)
Definition digest_info (type : Z) : option (list byte * nat) :=
  if type =? NID_md5 then
    Some ([x30; x20; x30; x0c; x06; x08; x2a; x86; x48; x86; xf7; x0d;
           x02; x05; x05; x00; x04; x10], 16%nat)
  else if type =? NID_sha1 then
    Some ([x30; x21; x30; x09; x06; x05; x2b; x0e; x03; x02; x1a;
           x05; x00; x04; x14], 20%nat)
  else if type =? NID_ripemd160 then
    Some ([x30; x21; x30; x09; x06; x05; x2b; x24; x03; x02; x01;
           x05; x00; x04; x14], 20%nat)
  else None.

(** The [DigestInfo] that is signed, or the reason it cannot be built. *)
Definition encode_digest_info (type : Z) (m : list byte)
  : ERR + list byte :=
  match digest_info type with
  | None => inl RSA_R_UNKNOWN_ALGORITHM_TYPE
  | Some (prefix, dlen) =>
      if (length m =? dlen)%nat then inr (prefix ++ m)
      else inl RSA_R_INVALID_DIGEST_LENGTH
  end.

(** Modelled from the spec: [RSA_sign(type, m, m_len, sigret, siglen,
    rsa)] of the library (spec 4.5, RSA_sign(3)): the [DigestInfo] of
    the digest, padded and encrypted with the private key; refused for
    an unknown algorithm, a digest of the wrong length, or a modulus too
    short for the [DigestInfo] and its padding. *)
Definition RSA_sign (type : Z) (m : list byte) (r : RSA) : ERR + list byte :=
  match encode_digest_info type m with
  | inl e => inl e
  | inr s =>
      if RSA_size r - Z.of_nat RSA_PKCS1_PADDING_SIZE <? Z.of_nat (length s)
      then inl RSA_R_DIGEST_TOO_BIG_FOR_RSA_KEY
      else RSA_private_encrypt s r RSA_PKCS1_PADDING
  end.

Definition bytes_eqb (a b : list byte) : bool :=
  if List.list_eq_dec Byte.byte_eq_dec a b then true else false.

(** Modelled from the spec: [RSA_verify(type, m, m_len, sigbuf,
    siglen, rsa)] of the library (spec 4.5): decrypts the signature with
    the public key and compares the result with the [DigestInfo] of the
    digest. *)
Definition RSA_verify (type : Z) (m sigbuf : list byte) (r : RSA)
  : ERR + unit :=
  if negb (Z.of_nat (length sigbuf) =? RSA_size r)
  then inl RSA_R_WRONG_SIGNATURE_LENGTH
  else
    match RSA_public_decrypt sigbuf r RSA_PKCS1_PADDING with
    | inl e => inl e
    | inr s =>
        match encode_digest_info type m with
        | inl e => inl e
        | inr s' => if bytes_eqb s s' then inr tt else inl RSA_R_BAD_SIGNATURE
        end
    end.

End OpenSSL.
Import OpenSSL.

(* ================================================================== *)
(** * The world of a call and its outcome *)

Module Memory.

(** The address of a record of the library; an [RSA*] is [option loc],
    with [None] for [NULL]. *)
Definition loc := positive.

(** What the calls read and change: the live records, the share count
    that the [boost::shared_ptr] control block keeps for each of them,
    the error queue of the library (earliest reason first), and how many
    further allocations the library will satisfy. *)
Record world := mkWorld {
  heap : gmap loc RSA;
  use_count : gmap loc nat;
  err_queue : list ERR;
  allocs_left : nat
}.

Definition set_heap (f : gmap loc RSA -> gmap loc RSA) (w : world) : world :=
  mkWorld (f (heap w)) (use_count w) (err_queue w) (allocs_left w).

Definition set_use_count (f : gmap loc nat -> gmap loc nat) (w : world)
  : world :=
  mkWorld (heap w) (f (use_count w)) (err_queue w) (allocs_left w).

Definition set_err_queue (q : list ERR) (w : world) : world :=
  mkWorld (heap w) (use_count w) q (allocs_left w).

Definition set_allocs_left (n : nat) (w : world) : world :=
  mkWorld (heap w) (use_count w) (err_queue w) n.

(** [ERR_put_error], for each reason of a failed call. *)
Definition ERR_put_errors (errs : list ERR) (w : world) : world :=
  set_err_queue (err_queue w ++ errs) w.

(** The exceptions the header throws. *)
Inductive exn : Type :=
| invalid_argument (what : string)
| cryptographic_exception (err : option ERR).

(** A call returns, throws, or was made outside its contract (a record
    that is not live, an output buffer shorter than the header asks). *)
Inductive outcome (A : Type) : Type :=
| Returns (a : A) (w : world)
| Throws (e : exn) (w : world)
| Undefined.
Arguments Returns {A} a w.
Arguments Throws {A} e w.
Arguments Undefined {A}.

Definition M (A : Type) : Type := world -> outcome A.

Definition ret {A} (a : A) : M A := fun w => Returns a w.

Definition bind {A B} (m : M A) (k : A -> M B) : M B :=
  fun w =>
    match m w with
    | Returns a w' => k a w'
    | Throws e w' => Throws e w'
    | Undefined => Undefined
    end.

Definition throw {A} (e : exn) : M A := fun w => Throws e w.

Definition undefined {A} : M A := fun _ => Undefined.

Definition modify (f : world -> world) : M unit := fun w => Returns tt (f w).

(** Reads the record behind a pointer; a null or dangling pointer is
    outside every contract. *)
Definition deref (p : option loc) : M RSA :=
  fun w =>
    match p with
    | Some l => match heap w !! l with
                | Some r => Returns r w
                | None => Undefined
                end
    | None => Undefined
    end.

(** ** The stateful calls of the library *)

(** Modelled from the spec: [RSA_new] of the library (spec 4.1): a
    fresh empty record, or [NULL] when the allocation fails. *)
Definition RSA_new : M (option loc) :=
  fun w =>
    match allocs_left w with
    | O => Returns None (ERR_put_errors [ERR_R_MALLOC_FAILURE] w)
    | S n =>
        let l := fresh (dom (heap w)) in
        Returns (Some l) (set_allocs_left n (set_heap <[l := RSA_empty]> w))
    end.

(** Modelled from the spec: [RSA_free] of the library, the release
    function of the shared ownership (spec 3 and 9): releases the
    record; [RSA_free(NULL)] does nothing. *)
Definition RSA_free (p : option loc) : M unit :=
  match p with
  | Some l => modify (set_heap (delete l))
  | None => ret tt
  end.

(** A [BN_CTX] only holds temporaries; a null one is made on the fly. *)
Definition BN_CTX := unit.

(** Modelled from the spec: [RSA_blinding_off] of the library (spec
    4.4, RSA_blinding_on(3)): turns the blinding of the record off; it
    returns nothing. *)
Definition RSA_blinding_off (p : option loc) : M unit :=
  bind (deref p) (fun _ =>
  match p with
  | Some l => modify (set_heap (alter (set_blinding false) l))
  | None => undefined
  end).

(** Modelled from the spec: [RSA_blinding_on] of the library (spec
    4.4, RSA_blinding_on(3)): drops the blinding in place, then sets up
    a new one; 0 when that cannot be allocated, 1 otherwise. *)
Definition RSA_blinding_on (p : option loc) (ctx : option BN_CTX) : M Z :=
  bind (RSA_blinding_off p) (fun _ w =>
  match p, allocs_left w with
  | Some l, S n =>
      Returns 1 (set_allocs_left n
                   (set_heap (alter (set_blinding true) l) w))
  | Some l, O => Returns 0 (ERR_put_errors [ERR_R_MALLOC_FAILURE] w)
  | None, _ => Undefined
  end).

End Memory.
Import Memory.

Declare Scope rsa_scope.
Notation "x <- m ;; k" := (bind m (fun x => k))
  (at level 100, m at next level, right associativity) : rsa_scope.
Notation "m ;;; k" := (bind m (fun _ => k))
  (at level 100, right associativity) : rsa_scope.
Local Open Scope rsa_scope.

(* ================================================================== *)
(** * The class [rsa_key] *)

Module cryptopen.

(** Modelled from the spec: the throw inside
    [error::throw_error_if_not]; error/cryptographic_exception.hpp,
    which defines it, is not part of the sources at hand. Spec 7 and 9:
    the error queue of the library is drained and its head reason
    becomes the failure, at the point of detection. *)
Definition throw_error {A} : M A :=
  fun w => Throws (cryptographic_exception (head (err_queue w)))
                  (set_err_queue [] w).

(** Modelled from the spec: [error::throw_error_if_not(condition)], of
    the same missing header: nothing happens when the condition holds. *)
Definition throw_error_if_not (condition : bool) : M unit :=
  if condition then ret tt else throw_error.

(** ** Shared ownership *)

(** [boost::shared_ptr<RSA>(p, RSA_free)]: a new control block, with a
    share count of one. *)
Definition shared_ptr_new (p : option loc) : M (option loc) :=
  match p with
  | Some l => modify (set_use_count <[l := 1%nat]>) ;;; ret p
  | None => ret p
  end.

(** Copying a shared pointer shares the record and counts the copy. *)
Definition shared_ptr_copy (p : option loc) : M (option loc) :=
  match p with
  | Some l => modify (set_use_count (alter S l)) ;;; ret p
  | None => ret p
  end.

(** Destroying one: the last owner calls the deleter, [RSA_free]. *)
Definition shared_ptr_destroy (p : option loc) : M unit :=
  match p with
  | Some l =>
      fun w =>
        match use_count w !! l with
        | Some (S (S n)) => Returns tt (set_use_count <[l := S n]> w)
        | Some _ => (modify (set_use_count (delete l)) ;;; RSA_free p) w
        | None => Undefined
        end
  | None => ret tt
  end.

(** [class rsa_key { boost::shared_ptr<RSA> m_rsa; }] *)
Record rsa_key := mk_rsa_key { m_rsa : option loc }.

(** The private constructor [rsa_key(boost::shared_ptr<RSA> rsa)]. *)
Definition rsa_key_of_shared_ptr (rsa : option loc) : M rsa_key :=
  throw_error_if_not (bool_decide (rsa <> None)) ;;;
  ret (mk_rsa_key rsa).

(** [rsa_key::rsa_key()] *)
Definition rsa_key_new : M rsa_key :=
  p <- RSA_new ;;
  sp <- shared_ptr_new p ;;
  throw_error_if_not (bool_decide (sp <> None)) ;;;
  ret (mk_rsa_key sp).

(** [rsa_key::rsa_key(RSA* rsa)] *)
Definition rsa_key_of_ptr (rsa : option loc) : M rsa_key :=
  sp <- shared_ptr_new rsa ;;
  if bool_decide (sp = None) then throw (invalid_argument "rsa")
  else ret (mk_rsa_key sp).

(** The copy constructor the compiler writes. *)
Definition rsa_key_copy (other : rsa_key) : M rsa_key :=
  sp <- shared_ptr_copy (m_rsa other) ;;
  ret (mk_rsa_key sp).

(** The destructor the compiler writes. *)
Definition rsa_key_destroy (this : rsa_key) : M unit :=
  shared_ptr_destroy (m_rsa this).

(** ** Loading and generation *)

(** The bytes a BIO or a FILE still holds. *)
Definition BIO := list byte.
Definition FILE := list byte.

(** [pem_passphrase_callback_type]; [None] is a null callback. The
    user argument travels inside the closure. *)
Definition pem_passphrase_callback_type := option (Z -> Z -> list byte).

(** Modelled from the spec: a PEM reader of the library (spec 4.2 and
    6), as a parameter: the pointer it returns, [NULL] on any failure,
    and the world it leaves. *)
Definition PEM_reader (source : Type) :=
  source -> pem_passphrase_callback_type -> world -> option loc * world.

Definition call_reader {source} (read : PEM_reader source) (s : source)
    (callback : pem_passphrase_callback_type) : M (option loc) :=
  fun w => let (p, w') := read s callback w in Returns p w'.

Section Loaders.

(** The PEM readers and the key generator belong to the library; the
    loaders are stated for any behaviour of theirs. *)
Variables PEM_read_bio_RSAPrivateKey PEM_read_bio_RSAPublicKey
          PEM_read_bio_RSA_PUBKEY : PEM_reader BIO.
Variables PEM_read_RSAPrivateKey PEM_read_RSAPublicKey
          PEM_read_RSA_PUBKEY : PEM_reader FILE.
Variable RSA_generate_key : Z -> Z -> world -> option loc * world.

Definition load {source} (read : PEM_reader source) (s : source)
    (callback : pem_passphrase_callback_type) : M rsa_key :=
  p <- call_reader read s callback ;;
  sp <- shared_ptr_new p ;;
  rsa_key_of_shared_ptr sp.

(** [rsa_key::from_private_key(bio::bio_ptr, ...)] *)
Definition from_private_key (bio : BIO) callback : M rsa_key :=
  load PEM_read_bio_RSAPrivateKey bio callback.

(** [rsa_key::from_public_key(bio::bio_ptr, ...)] *)
Definition from_public_key (bio : BIO) callback : M rsa_key :=
  load PEM_read_bio_RSAPublicKey bio callback.

(** [rsa_key::from_certificate_public_key(bio::bio_ptr, ...)] *)
Definition from_certificate_public_key (bio : BIO) callback : M rsa_key :=
  load PEM_read_bio_RSA_PUBKEY bio callback.

(** [rsa_key::from_private_key(FILE*, ...)] *)
Definition from_private_key_file (file : FILE) callback : M rsa_key :=
  load PEM_read_RSAPrivateKey file callback.

(** [rsa_key::from_public_key(FILE*, ...)] *)
Definition from_public_key_file (file : FILE) callback : M rsa_key :=
  load PEM_read_RSAPublicKey file callback.

(** [rsa_key::from_certificate_public_key(FILE*, ...)] *)
Definition from_certificate_public_key_file (file : FILE) callback
  : M rsa_key :=
  load PEM_read_RSA_PUBKEY file callback.

(** Modelled from the spec: [rsa_key::generate_private_key(num,
    exponent, callback, callback_arg)], whose body is in rsa_key.cpp,
    which is not part of the sources at hand. Spec 4.1: the key comes
    from the generator of the library for [num] bits and [exponent];
    the callback only watches; a failed generation is a failure
    carrying the library's diagnostic. *)
Definition generate_private_key (num : Z) (exponent : Z) : M rsa_key :=
  p <- (fun w => let (p, w') := RSA_generate_key num exponent w in
                 Returns p w') ;;
  sp <- shared_ptr_new p ;;
  rsa_key_of_shared_ptr sp.

End Loaders.

(** ** Accessors *)

(** [rsa_key::raw()] *)
Definition raw (this : rsa_key) : option loc := m_rsa this.

(** [rsa_key::size()] *)
Definition size (this : rsa_key) : M Z :=
  r <- deref (raw this) ;;
  ret (RSA_size r).

(** [rsa_key::check()] *)
Definition check (this : rsa_key) : M unit :=
  r <- deref (raw this) ;;
  let (result, errs) := RSA_check_key r in
  modify (ERR_put_errors errs) ;;;
  throw_error_if_not (0 <? result).

(** [rsa_key::enable_blinding(BN_CTX* ctx)] *)
Definition enable_blinding (this : rsa_key) (ctx : option BN_CTX) : M unit :=
  result <- RSA_blinding_on (raw this) ctx ;;
  throw_error_if_not (negb (result =? 0)).

(** [rsa_key::disable_blinding()] *)
Definition disable_blinding (this : rsa_key) : M unit :=
  RSA_blinding_off (raw this).

(** [operator==] and [operator!=] *)
Definition operator_eq (lhs rhs : rsa_key) : bool :=
  bool_decide (raw lhs = raw rhs).

Definition operator_ne (lhs rhs : rsa_key) : bool :=
  negb (bool_decide (raw lhs = raw rhs)).

(** ** Transforms *)

(** Writing [data] at the start of the buffer [out]. *)
Definition write_buffer (out data : list byte) : list byte :=
  data ++ skipn (length data) out.

(** Modelled from the spec: what a failed call of the library becomes
    (spec 7): its reason is queued, and thrown at once. *)
Definition fail_with {A} (e : ERR) : M A :=
  modify (ERR_put_errors [e]) ;;; throw_error.

(** Modelled from the spec: the shape that the byte transforms and
    [sign] of rsa_key.cpp share (spec 4.5): the output buffer must have
    the length the header asks, the library is called once, its failure
    is thrown, and its bytes are written and counted. *)
Definition transform (this : rsa_key) (needed : RSA -> Z)
    (call : RSA -> ERR + list byte) (out : list byte)
  : M (list byte * Z) :=
  r <- deref (raw this) ;;
  if Z.of_nat (length out) <? needed r then undefined
  else match call r with
       | inl e => fail_with e
       | inr data => ret (write_buffer out data, Z.of_nat (length data))
       end.

(** Modelled from the spec: [rsa_key::private_encrypt(out, out_len,
    buf, buf_len, padding)], whose body is in rsa_key.cpp, which is not
    part of the sources at hand. Spec 4.5: needs private material; the
    output buffer must be at least [size()] bytes; the count of bytes
    written is returned; every failure of the library is thrown. *)
Definition private_encrypt (this : rsa_key) (out buf : list byte)
    (padding : Z) : M (list byte * Z) :=
  transform this RSA_size (fun r => RSA_private_encrypt buf r padding) out.

(** Modelled from the spec: [rsa_key::public_decrypt(out, out_len,
    buf, buf_len, padding)], whose body is in rsa_key.cpp, which is not
    part of the sources at hand. Spec 4.5: the inverse of
    [private_encrypt]; needs public material only; the output buffer
    must be at least [size() - 11] bytes. *)
Definition public_decrypt (this : rsa_key) (out buf : list byte)
    (padding : Z) : M (list byte * Z) :=
  transform this (fun r => RSA_size r - Z.of_nat RSA_PKCS1_PADDING_SIZE)
            (fun r => RSA_public_decrypt buf r padding) out.

(** Modelled from the spec: [rsa_key::sign(out, out_len, buf, buf_len,
    type)], whose body is in rsa_key.cpp, which is not part of the
    sources at hand. Spec 4.5: needs private material; the output buffer
    must be at least [size()] bytes; fails when the library rejects the
    digest. *)
Definition sign (this : rsa_key) (out buf : list byte) (type : Z)
  : M (list byte * Z) :=
  transform this RSA_size (fun r => RSA_sign type buf r) out.

(** [std::vector<T>::resize] on bytes. *)
Definition resize (n : nat) (v : list byte) : list byte :=
  firstn n v ++ repeat x00 (n - length v).

(** [template <typename T> std::vector<T> rsa_key::sign(buf, buf_len, type)],
    at [T = unsigned char]. *)
Definition sign_vector (this : rsa_key) (buf : list byte) (type : Z)
  : M (list byte) :=
  n <- size this ;;
  let result := repeat x00 (Z.to_nat n) in
  written <- sign this result buf type ;;
  ret (resize (Z.to_nat (snd written)) (fst written)).

(** Modelled from the spec: [rsa_key::verify(sign, sign_len, buf,
    buf_len, type)], whose body is in rsa_key.cpp, which is not part of
    the sources at hand. Spec 4.5: needs public material only; an
    ill-formed and a wrong signature are the same failure. *)
Definition verify (this : rsa_key) (sig buf : list byte) (type : Z)
  : M unit :=
  r <- deref (raw this) ;;
  match RSA_verify type buf sig r with
  | inl e => fail_with e
  | inr _ => ret tt
  end.

(** [template <typename T> std::vector<T> rsa_key::sign(buf, buf_len, type)]
    for an element type [T] of [width] bytes; the vector is given by its
    bytes. [result(size())] has [size()] elements, which are
    [width * size()] bytes, all zero; [result.size()] is passed for the
    length of the buffer; [resize] takes the count that the buffer
    [sign] returns for a number of elements. *)
Definition sign_vector_of_width (width : nat) (this : rsa_key)
    (buf : list byte) (type : Z) : M (list byte) :=
  n <- size this ;;
  let result := repeat x00 (width * Z.to_nat n) in
  written <- sign this result buf type ;;
  ret (resize (width * Z.to_nat (snd written)) (fst written)).

(** ** Storing and printing *)

(** A cipher of the library, [EVP_CIPHER], by its NID. *)
Definition EVP_CIPHER := Z.

(** Modelled from the spec: [cipher::cipher_algorithm], whose header is
    not part of the sources at hand. Spec 4.3: the cipher selection is
    opaque to the class and passed through to the library; the writers
    take its [raw()], a cipher of the library or [NULL]. *)
Record cipher_algorithm := mk_cipher_algorithm {
  cipher_raw : option EVP_CIPHER
}.

(** The [int] that a [size_t] becomes where the library takes an
    [int]: the value modulo [2^32], counted from [-2^31]. *)
Definition int_of_size_t (n : Z) : Z := (n + 2 ^ 31) mod 2 ^ 32 - 2 ^ 31.

(** Modelled from the spec: the PEM writers and the printers of the
    library (spec 4.3, 4.4 and 6), as parameters: the [int] they return,
    0 for a failure, and the sink and the world they leave. A private-key
    writer takes the cipher, the passphrase with its length, and the
    callback; a printer takes the offset. *)
Definition PEM_private_key_writer (sink : Type) :=
  sink -> option loc -> option EVP_CIPHER -> option (list byte) -> Z ->
  pem_passphrase_callback_type -> world -> Z * sink * world.

Definition PEM_public_key_writer (sink : Type) :=
  sink -> option loc -> world -> Z * sink * world.

Definition RSA_printer (sink : Type) :=
  sink -> option loc -> Z -> world -> Z * sink * world.

(** A sink is not part of the world of the records: a call hands back
    the sink as the library left it, beside its outcome.
    [throw_error_if_not] takes the [int] of the library for its
    condition: zero is false. *)
Definition store {sink} (call : world -> Z * sink * world)
  : world -> sink * outcome unit :=
  fun w =>
    let '(result, s, w') := call w in
    (s, throw_error_if_not (negb (result =? 0)) w').

Section Writers.

Variable PEM_write_bio_RSAPrivateKey : PEM_private_key_writer BIO.
Variables PEM_write_bio_RSAPublicKey PEM_write_bio_RSA_PUBKEY
  : PEM_public_key_writer BIO.
Variable PEM_write_RSAPrivateKey : PEM_private_key_writer FILE.
Variables PEM_write_RSAPublicKey PEM_write_RSA_PUBKEY
  : PEM_public_key_writer FILE.
Variable RSA_print : RSA_printer BIO.
Variable RSA_print_fp : RSA_printer FILE.

(** [rsa_key::write_private_key(bio::bio_ptr, cipher_algorithm,
    const void* passphrase, size_t passphrase_len)] *)
Definition write_private_key (this : rsa_key) (bio : BIO)
    (algorithm : cipher_algorithm) (passphrase : option (list byte))
    (passphrase_len : Z) : world -> BIO * outcome unit :=
  store (PEM_write_bio_RSAPrivateKey bio (raw this) (cipher_raw algorithm)
           passphrase (int_of_size_t passphrase_len) None).

(** [rsa_key::write_private_key(bio::bio_ptr, cipher_algorithm,
    pem_passphrase_callback_type callback, void* callback_arg)] *)
Definition write_private_key_callback (this : rsa_key) (bio : BIO)
    (algorithm : cipher_algorithm) (callback : pem_passphrase_callback_type)
  : world -> BIO * outcome unit :=
  store (PEM_write_bio_RSAPrivateKey bio (raw this) (cipher_raw algorithm)
           None 0 callback).

(** [rsa_key::write_public_key(bio::bio_ptr)] *)
Definition write_public_key (this : rsa_key) (bio : BIO)
  : world -> BIO * outcome unit :=
  store (PEM_write_bio_RSAPublicKey bio (raw this)).

(** [rsa_key::write_certificate_public_key(bio::bio_ptr)] *)
Definition write_certificate_public_key (this : rsa_key) (bio : BIO)
  : world -> BIO * outcome unit :=
  store (PEM_write_bio_RSA_PUBKEY bio (raw this)).

(** [rsa_key::write_private_key(FILE*, cipher_algorithm,
    const void* passphrase, size_t passphrase_len)] *)
Definition write_private_key_file (this : rsa_key) (file : FILE)
    (algorithm : cipher_algorithm) (passphrase : option (list byte))
    (passphrase_len : Z) : world -> FILE * outcome unit :=
  store (PEM_write_RSAPrivateKey file (raw this) (cipher_raw algorithm)
           passphrase (int_of_size_t passphrase_len) None).

(** [rsa_key::write_private_key(FILE*, cipher_algorithm,
    pem_passphrase_callback_type callback, void* callback_arg)] *)
Definition write_private_key_callback_file (this : rsa_key) (file : FILE)
    (algorithm : cipher_algorithm) (callback : pem_passphrase_callback_type)
  : world -> FILE * outcome unit :=
  store (PEM_write_RSAPrivateKey file (raw this) (cipher_raw algorithm)
           None 0 callback).

(** [rsa_key::write_public_key(FILE* file)] *)
Definition write_public_key_file (this : rsa_key) (file : FILE)
  : world -> FILE * outcome unit :=
  store (PEM_write_RSAPublicKey file (raw this)).

(** [rsa_key::write_certificate_public_key(FILE* file)] *)
Definition write_certificate_public_key_file (this : rsa_key) (file : FILE)
  : world -> FILE * outcome unit :=
  store (PEM_write_RSA_PUBKEY file (raw this)).

(** [rsa_key::print(bio::bio_ptr, int offset)] *)
Definition print (this : rsa_key) (bio : BIO) (offset : Z)
  : world -> BIO * outcome unit :=
  store (RSA_print bio (raw this) offset).

(** [rsa_key::print(FILE*, int offset)] *)
Definition print_file (this : rsa_key) (file : FILE) (offset : Z)
  : world -> FILE * outcome unit :=
  store (RSA_print_fp file (raw this) offset).

End Writers.

End cryptopen.
Import cryptopen.

(* ================================================================== *)
(** * What a record holds *)

Module KeyMaterial.

(** The record carries private material: a private exponent. *)
Definition has_private_material (r : RSA) : Prop := rsa_d r <> None.

(** A public-only record: modulus and public exponent, nothing else. *)
Definition public_only (r : RSA) : Prop :=
  rsa_d r = None /\ rsa_p r = None /\ rsa_q r = None.

(** The CRT parameters agree with the exponent and the primes, when
    the record has all three of them. *)
Definition crt_consistent (r : RSA) (d p q : BIGNUM) : Prop :=
  match rsa_dmp1 r, rsa_dmq1 r, rsa_iqmp r with
  | Some dmp1, Some dmq1, Some iqmp =>
      Z.of_N dmp1 = Z.of_N d mod (Z.of_N p - 1) /\
      Z.of_N dmq1 = Z.of_N d mod (Z.of_N q - 1) /\
      Z.of_N iqmp < Z.of_N p /\
      (Z.of_N iqmp * Z.of_N q) mod Z.of_N p = 1
  | _, _, _ => True
  end.

(** The private material of the record is internally consistent: the
    modulus is the product of two primes, the exponents are inverse to
    each other, and the CRT parameters fit. *)
Definition consistent (r : RSA) : Prop :=
  exists p q d : BIGNUM,
    rsa_p r = Some p /\ rsa_q r = Some q /\ rsa_d r = Some d /\
    Z.prime (Z.of_N p) /\ Z.prime (Z.of_N q) /\
    rsa_n r = (p * q)%N /\
    (Z.of_N d * Z.of_N (rsa_e r))
      mod Z.lcm (Z.of_N p - 1) (Z.of_N q - 1) = 1 /\
    crt_consistent r d p q.

(** The two primes differ, as they do in every generated key. *)
Definition distinct_primes (r : RSA) : Prop := rsa_p r <> rsa_q r.

(** The handle [h] refers to the live record [r] in [w]. *)
Definition refers_to (w : world) (h : rsa_key) (r : RSA) : Prop :=
  exists l, raw h = Some l /\ heap w !! l = Some r.

(** The construction throws, or returns a handle on a record: it does
    not return a handle with a null pointer, and it stays within its
    contract. *)
Definition never_null (o : outcome rsa_key) : Prop :=
  match o with
  | Returns h _ => raw h <> None
  | Throws _ _ => True
  | Undefined => False
  end.

(** The call failed with the exception that carries a reason of the
    library. *)
Definition throws_cryptographic_exception {A} (o : outcome A) : Prop :=
  exists err w, o = Throws (cryptographic_exception err) w.

(** The loader does what its reader does, and nothing more: it throws
    when the reader returns [NULL], and returns a handle on the record
    of the reader otherwise. *)
Definition follows_reader {source} (read : PEM_reader source)
    (loader : source -> pem_passphrase_callback_type -> M rsa_key)
    (s : source) (callback : pem_passphrase_callback_type) (w : world)
  : Prop :=
  (fst (read s callback w) = None ->
   throws_cryptographic_exception (loader s callback w)) /\
  (forall l, fst (read s callback w) = Some l ->
             exists w', loader s callback w
                        = Returns (mk_rsa_key (Some l)) w').

(** The least [s] with [n <= 8 * s]: the bytes that [n] bits take. *)
Definition is_ceil_div8 (n s : Z) : Prop := 8 * (s - 1) < n <= 8 * s.

End KeyMaterial.
Import KeyMaterial.

(* ================================================================== *)
(** * Lifetimes and frames *)

Module Lifetime.

(** The destructors of several handles, run one after the other, as at
    the end of the scope that holds them. *)
Fixpoint destroy_handles (hs : list rsa_key) : M unit :=
  match hs with
  | [] => ret tt
  | h :: hs' => rsa_key_destroy h ;;; destroy_handles hs'
  end.

(** The key parameters of a record: all of it but the blinding. *)
Definition key_parameters (r : RSA) :=
  (rsa_n r, rsa_e r, rsa_d r, rsa_p r, rsa_q r,
   rsa_dmp1 r, rsa_dmq1 r, rsa_iqmp r).

(** The world that a call left, when it returned or threw. *)
Definition world_after {A} (o : outcome A) : option world :=
  match o with
  | Returns _ w' => Some w'
  | Throws _ w' => Some w'
  | Undefined => None
  end.

(** The call stayed within its contract and changed no record, no share
    count and no allocation: it left the world as it was when it
    returned, and only emptied the error queue when it threw. *)
Definition leaves_records {A} (w : world) (o : outcome A) : Prop :=
  match o with
  | Returns _ w' => w' = w
  | Throws _ w' => w' = set_err_queue [] w
  | Undefined => False
  end.

(** The wrapper does what the call of the library does, and nothing
    more: the sink is the one the library left; the wrapper throws when
    the library returned 0, and returns in the world of the library
    otherwise. *)
Definition follows_library {sink} (call : world -> Z * sink * world)
    (wrapper : world -> sink * outcome unit) (w : world) : Prop :=
  fst (wrapper w) = snd (fst (call w)) /\
  (fst (fst (call w)) = 0 ->
   throws_cryptographic_exception (snd (wrapper w))) /\
  (fst (fst (call w)) <> 0 -> snd (wrapper w) = Returns tt (snd (call w))).

(** The handle that the loader returns is the one owner of the record
    of the reader: destroying it releases that record, and no other. *)
Definition sole_owner {source} (read : PEM_reader source)
    (loader : source -> pem_passphrase_callback_type -> M rsa_key) : Prop :=
  forall s callback w l w0,
    read s callback w = (Some l, w0) ->
    exists h w1 w2,
      loader s callback w = Returns h w1 /\ raw h = Some l /\
      heap w1 = heap w0 /\
      rsa_key_destroy h w1 = Returns tt w2 /\
      heap w2 = delete l (heap w0).

(** The public half of a record: the modulus and the public exponent,
    nothing else, no blinding. *)
Definition public_part (r : RSA) : RSA :=
  mkRSA (rsa_n r) (rsa_e r) None None None None None None false.

(** The reader of the library reads back what its writer wrote: when
    the writer succeeds on a live record and an empty sink, it changes
    no record, and the reader, given what the sink then holds, returns
    a new record with the public half of the one written. *)
Definition reads_back (write : PEM_public_key_writer BIO)
    (read : PEM_reader BIO) : Prop :=
  forall l r w result pem w1 callback,
    heap w !! l = Some r ->
    write [] (Some l) w = (result, pem, w1) -> result <> 0 ->
    heap w1 = heap w /\
    exists l' w2,
      read pem callback w1 = (Some l', w2) /\
      heap w1 !! l' = None /\
      heap w2 = <[l' := public_part r]> (heap w1).

End Lifetime.
Import Lifetime.

(* ================================================================== *)
(** * Primality certificates

    A prime of key size is out of the reach of trial division; its
    primality is checked from a Lucas certificate: a base of full order
    and the prime factors of its predecessor, with their exponents. *)

Module Certificate.

(** [a] certifies [n] with the factorization [fs] of [n - 1]: the
    factors are prime and multiply to [n - 1], [a ^ (n - 1)] is 1
    modulo [n], and [a ^ ((n - 1) / q)] is not, for each factor [q]. *)
Definition lucas_certificate (n a : Z) (fs : list (Z * nat)) : bool :=
  (1 <? n) &&
  forallb (fun qe => BN_is_prime (Z.to_N (fst qe))) fs &&
  forallb (fun qe => 0 <? fst qe) fs &&
  (fold_right (fun qe acc => fst qe ^ Z.of_nat (snd qe) * acc) 1 fs
   =? n - 1) &&
  (Zpow_mod a (n - 1) n =? 1) &&
  forallb (fun qe => negb (Zpow_mod a ((n - 1) / fst qe) n =? 1)) fs.

(** The factors of a certificate, each as often as its exponent says. *)
Definition expand_factors (fs : list (Z * nat)) : list Z :=
  flat_map (fun qe => repeat (fst qe) (snd qe)) fs.

End Certificate.
Import Certificate.

(* ================================================================== *)
(** * Keys to run the model on *)

Module TestKeys.

(** A 384-bit key with public exponent 65537. Its primes are
    [50131 * 2^176 + 1] and [51991 * 2^176 + 1]. *)
Definition K_p : Z :=
  4801595872446742147397643426129509355249438183386635042817.
Definition K_q : Z :=
  4979748479072401727181801268035732797845116606340478795777.
Definition K_n : Z :=
  23910739742936986051402760724654009448111654076593989187303799888291268919817237576723769168430451706076520993783809.
Definition K_e : Z := 65537.
Definition K_d : Z :=
  204996621086449510272344298258117365034577805423869357985824769.
Definition K_dmp1 : Z :=
  2088504080747773496707466370222130913541060543748102881281.
Definition K_dmq1 : Z :=
  295196955020771178267258158388678485735207257207878909953.
Definition K_iqmp : Z :=
  2072947035255233303419520253323653770035106914655627924372.

(** The prime factors of [K_p - 1] and of [K_q - 1]; 3 has full order
    modulo both primes. *)
Definition K_p_factors : list (Z * nat) := [(2, 176%nat); (50131, 1%nat)].
Definition K_q_factors : list (Z * nat) := [(2, 176%nat); (51991, 1%nat)].

Definition key384 : RSA :=
  mkRSA (Z.to_N K_n) (Z.to_N K_e) (Some (Z.to_N K_d))
        (Some (Z.to_N K_p)) (Some (Z.to_N K_q))
        (Some (Z.to_N K_dmp1)) (Some (Z.to_N K_dmq1))
        (Some (Z.to_N K_iqmp)) false.

(** Its public half. *)
Definition key384_public : RSA :=
  mkRSA (Z.to_N K_n) (Z.to_N K_e) None None None None None None false.

(** A 96-bit key: consistent, and too short to sign with. Its primes
    are [49801 * 2^32 + 1] and [49807 * 2^32 + 1]; 3 has full order
    modulo both. *)
Definition S_p : Z := 213893666308097.
Definition S_q : Z := 213919436111873.
Definition S_p_factors : list (Z * nat) := [(2, 32%nat); (49801, 1%nat)].
Definition S_q_factors : list (Z * nat) := [(2, 32%nat); (49807, 1%nat)].

Definition key96 : RSA :=
  mkRSA 45756012484529238604177735681%N 65537%N
        (Some 8295696415594577921%N)
        (Some (Z.to_N S_p)) (Some (Z.to_N S_q))
        (Some 44461501382657%N) (Some 114602612293633%N)
        (Some 178244721915114%N) false.

(** The same modulus with a private exponent that is not the inverse
    of the public one. *)
Definition key96_wrong_d : RSA :=
  mkRSA 45756012484529238604177735681%N 65537%N (Some 3%N)
        None None None None None false.

(** A world with one record at address 1, shared by one handle. *)
Definition world_with (r : RSA) : world :=
  mkWorld {[ 1%positive := r ]} {[ 1%positive := 1%nat ]} [] 1.

Definition handle1 : rsa_key := mk_rsa_key (Some 1%positive).

(** Two records with the same key parameters, at addresses 1 and 2. *)
Definition world_with_twins (r : RSA) : world :=
  mkWorld {[ 1%positive := r; 2%positive := r ]}
          {[ 1%positive := 1%nat; 2%positive := 1%nat ]} [] 1.

Definition handle2 : rsa_key := mk_rsa_key (Some 2%positive).

(** A generator that finds one key only. *)
Definition one_key_generator (num exponent : Z) (w : world)
  : option loc * world :=
  if (num =? 96) && (exponent =? 65537) then
    let l := fresh (dom (heap w)) in
    (Some l, set_heap <[l := key96]> w)
  else (None, ERR_put_errors [RSA_R_KEY_GENERATION_FAILED] w).

(** A reader that takes the streams that start with its tag. *)
Definition tagged_reader (tag : byte) : PEM_reader (list byte) :=
  fun s _ w =>
    match s with
    | b :: _ =>
        if Byte.eqb b tag then
          let l := fresh (dom (heap w)) in
          (Some l, set_heap <[l := key384_public]> w)
        else (None, ERR_put_errors [ERR_R_PEM_LIB] w)
    | [] => (None, ERR_put_errors [ERR_R_PEM_LIB] w)
    end.

(** One reader for each of the three formats. *)
Definition private_key_reader : PEM_reader (list byte) := tagged_reader x01.
Definition public_key_reader : PEM_reader (list byte) := tagged_reader x02.
Definition certificate_reader : PEM_reader (list byte) := tagged_reader x03.

(** A 20-byte digest. *)
Definition digest20 : list byte := repeat x2a 20.

(** What [key96_wrong_d] makes of the one-byte plaintext [2a]. *)
Definition wrong_d_ciphertext : list byte :=
  [x1a; x3f; x9d; x09; x7c; x4a; x94; x5c; x84; xa2; xc0; x5f].

End TestKeys.
Import TestKeys.

(* ================================================================== *)
(** * Sinks and blocks to run the calls on *)

Module TestData.

(** A number in a stream: as many [ff] bytes as the number has bytes, a
    zero byte, and the bytes of the number. *)
Definition encode_bn (a : BIGNUM) : list byte :=
  repeat xff (Z.to_nat (BN_num_bytes a))
  ++ x00 :: BN_bn2binpad a (Z.to_nat (BN_num_bytes a)).

(** The number at the head of a stream, and what follows it. *)
Definition decode_bn (s : list byte) : option (BIGNUM * list byte) :=
  match skip_ff s with
  | (k, x00 :: rest) =>
      if (length rest <? k)%nat then None
      else Some (BN_bin2bn (firstn k rest), skipn k rest)
  | _ => None
  end.

(** A public-key writer that appends the modulus and the public
    exponent to the sink, and fails on a pointer to no record. *)
Definition plain_writer : PEM_public_key_writer (list byte) :=
  fun sink p w =>
    match p with
    | Some l =>
        match heap w !! l with
        | Some r => (1, sink ++ encode_bn (rsa_n r) ++ encode_bn (rsa_e r), w)
        | None => (0, sink, ERR_put_errors [ERR_R_PEM_LIB] w)
        end
    | None => (0, sink, ERR_put_errors [ERR_R_PEM_LIB] w)
    end.

(** The reader for what [plain_writer] writes. *)
Definition plain_reader : PEM_reader (list byte) :=
  fun s _ w =>
    match decode_bn s with
    | Some (n, rest) =>
        match decode_bn rest with
        | Some (e, _) =>
            let l := fresh (dom (heap w)) in
            (Some l,
             set_heap <[l := mkRSA n e None None None None None None false]> w)
        | None => (None, ERR_put_errors [ERR_R_PEM_LIB] w)
        end
    | None => (None, ERR_put_errors [ERR_R_PEM_LIB] w)
    end.

(** A private-key writer that appends the bytes of the private
    exponent, after the passphrase when it is given one, and fails on a
    record without private exponent. *)
Definition private_exponent_writer : PEM_private_key_writer (list byte) :=
  fun sink p enc kstr klen callback w =>
    match p with
    | Some l =>
        match heap w !! l with
        | Some r =>
            match rsa_d r with
            | Some d =>
                (1, sink
                    ++ match kstr with
                       | Some k => firstn (Z.to_nat klen) k
                       | None => []
                       end
                    ++ BN_bn2binpad d (Z.to_nat (RSA_size r)), w)
            | None => (0, sink, ERR_put_errors [RSA_R_VALUE_MISSING] w)
            end
        | None => (0, sink, ERR_put_errors [ERR_R_PEM_LIB] w)
        end
    | None => (0, sink, ERR_put_errors [ERR_R_PEM_LIB] w)
    end.

(** A printer that writes [offset] spaces and the bytes of the public
    exponent, and fails for a negative offset. *)
Definition exponent_printer : RSA_printer (list byte) :=
  fun sink p offset w =>
    match p with
    | Some l =>
        match heap w !! l with
        | Some r =>
            if offset <? 0 then (0, sink, ERR_put_errors [ERR_R_PEM_LIB] w)
            else (1, sink ++ repeat x20 (Z.to_nat offset)
                      ++ BN_bn2binpad (rsa_e r)
                           (Z.to_nat (BN_num_bytes (rsa_e r))), w)
        | None => (0, sink, ERR_put_errors [ERR_R_PEM_LIB] w)
        end
    | None => (0, sink, ERR_put_errors [ERR_R_PEM_LIB] w)
    end.

(** What [key96] makes of the one-byte plaintext [2a]. *)
Definition key96_ciphertext : list byte :=
  [x1a; x1f; xe8; x1c; x79; x01; x03; x8c; x37; x38; x41; x6e].

(** The signature of [digest20], as a SHA-1 digest, under [key384]. *)
Definition key384_signature : list byte :=
  [x88; xd7; x45; xbd; x25; x66; x5d; x97; x3a; x3f; xd6; xad;
   xe1; x3c; x7a; xaa; x15; x8a; x91; x3d; xa4; x5e; x01; x41;
   xdb; xfd; xc4; x1e; xe3; x21; x6f; x4b; xb8; xe4; xf4; xb8;
   x9e; xd4; x10; xa6; x02; x6f; xd5; x48; x29; x05; x2f; x5e].

End TestData.
Import TestData.

(* ================================================================== *)
(** * The model at work *)

Example padded_block :
  RSA_padding_add_PKCS1_type_1 12 [x2a]
  = Some [x00; x01; xff; xff; xff; xff; xff; xff; xff; xff; x00; x2a].
Proof. reflexivity. Qed.

Example padded_block_checked :
  RSA_padding_check_PKCS1_type_1
    [x00; x01; xff; xff; xff; xff; xff; xff; xff; xff; x00; x2a]
  = Some [x2a].
Proof. reflexivity. Qed.

Example short_padding_refused :
  RSA_padding_check_PKCS1_type_1
    [x00; x01; xff; xff; xff; xff; xff; xff; xff; x00; x2a; x2a]
  = None.
Proof. reflexivity. Qed.

Example bytes_of_a_number : BN_bn2binpad 258%N 4 = [x00; x00; x01; x02].
Proof. reflexivity. Qed.

Example number_of_bytes : BN_bin2bn [x00; x00; x01; x02] = 258%N.
Proof. reflexivity. Qed.

Example size_key96 : RSA_size key96 = 12.
Proof. reflexivity. Qed.

Example size_key384 : RSA_size key384 = 48.
Proof. reflexivity. Qed.

Example size_of_2048_bits : BN_num_bytes (2 ^ 2047)%N = 256.
Proof. reflexivity. Qed.

Example key96_one_byte_and_back :
  match RSA_private_encrypt [x2a] key96 RSA_PKCS1_PADDING with
  | inr c => RSA_public_decrypt c key96 RSA_PKCS1_PADDING
  | inl e => inl e
  end = inr [x2a].
Proof. vm_compute. reflexivity. Qed.

Example sha1_digest_info_length :
  option_map (fun pd => (length (fst pd) + snd pd)%nat) (digest_info NID_sha1)
  = Some 35%nat.
Proof. reflexivity. Qed.

(* ================================================================== *)
(** * Facts about bytes and big numbers *)

Section Bytes.

Lemma to_N_byte_of_N (x : N) : Byte.to_N (byte_of_N x) = (x mod 256)%N.
Proof.
  unfold byte_of_N.
  destruct (Byte.of_N (x mod 256)) as [b|] eqn:E.
  - now apply Byte.to_of_N.
  - apply Byte.of_N_None_iff in E.
    pose proof (N.mod_upper_bound x 256). lia.
Qed.

Lemma length_N_to_le (len : nat) (a : N) : length (N_to_le len a) = len.
Proof.
  revert a. induction len as [|len IH]; intros a; simpl; [|rewrite IH];
    reflexivity.
Qed.

Lemma le_to_N_bound (s : list byte) :
  (le_to_N s < 256 ^ N.of_nat (length s))%N.
Proof.
  induction s as [|b s IH]; [simpl; lia|].
  cbn [le_to_N length]. rewrite Nat2N.inj_succ, N.pow_succ_r'.
  pose proof (Byte.to_N_bounded b). lia.
Qed.

Lemma le_to_N_to_le (len : nat) (a : N) :
  (a < 256 ^ N.of_nat len)%N -> le_to_N (N_to_le len a) = a.
Proof.
  revert a. induction len as [|len IH]; intros a Ha.
  - simpl in *. lia.
  - cbn [N_to_le le_to_N]. rewrite to_N_byte_of_N, IH.
    + pose proof (N.div_mod' a 256). lia.
    + rewrite Nat2N.inj_succ, N.pow_succ_r' in Ha.
      apply N.Div0.div_lt_upper_bound. lia.
Qed.

Lemma N_to_le_to_N (s : list byte) : N_to_le (length s) (le_to_N s) = s.
Proof.
  induction s as [|b s IH]; [reflexivity|].
  cbn [length N_to_le le_to_N].
  pose proof (Byte.to_N_bounded b) as Hb.
  f_equal.
  - unfold byte_of_N.
    rewrite <- (N.mod_unique _ 256 (le_to_N s) (Byte.to_N b)) by lia.
    now rewrite Byte.of_to_N.
  - rewrite <- (N.div_unique _ 256 (le_to_N s) (Byte.to_N b)) by lia.
    exact IH.
Qed.

Lemma length_bn2binpad (a : BIGNUM) (len : nat) :
  length (BN_bn2binpad a len) = len.
Proof. unfold BN_bn2binpad. now rewrite length_rev, length_N_to_le. Qed.

Lemma bin2bn_bn2binpad (a : BIGNUM) (len : nat) :
  (a < 256 ^ N.of_nat len)%N -> BN_bin2bn (BN_bn2binpad a len) = a.
Proof.
  intros Ha. unfold BN_bin2bn, BN_bn2binpad.
  rewrite rev_involutive. now apply le_to_N_to_le.
Qed.

Lemma bn2binpad_bin2bn (s : list byte) :
  BN_bn2binpad (BN_bin2bn s) (length s) = s.
Proof.
  unfold BN_bin2bn, BN_bn2binpad.
  rewrite <- (length_rev s), N_to_le_to_N. apply rev_involutive.
Qed.

Lemma bin2bn_bound (s : list byte) :
  (BN_bin2bn s < 256 ^ N.of_nat (length s))%N.
Proof. unfold BN_bin2bn. rewrite <- (length_rev s). apply le_to_N_bound. Qed.

Lemma bin2bn_cons (b : byte) (s : list byte) :
  BN_bin2bn (b :: s)
  = (Byte.to_N b * 256 ^ N.of_nat (length s) + BN_bin2bn s)%N.
Proof.
  unfold BN_bin2bn. simpl rev. rewrite <- (length_rev s).
  induction (rev s) as [|c t IH]; simpl le_to_N.
  - simpl. lia.
  - rewrite IH. cbn [length]. rewrite Nat2N.inj_succ, N.pow_succ_r'. lia.
Qed.

End Bytes.

Lemma BN_mod_exp_spec (a p m : BIGNUM) :
  m <> 0%N -> Z.of_N (BN_mod_exp a p m) = Z.of_N a ^ Z.of_N p mod Z.of_N m.
Proof.
  intros Hm. unfold BN_mod_exp.
  rewrite Zpow_mod_correct by lia.
  apply Z2N.id. apply Z.mod_pos_bound. lia.
Qed.

Lemma BN_mod_exp_lt (a p m : BIGNUM) : m <> 0%N -> (BN_mod_exp a p m < m)%N.
Proof.
  intros Hm. pose proof (BN_mod_exp_spec a p m Hm) as E.
  pose proof (Z.mod_pos_bound (Z.of_N a ^ Z.of_N p) (Z.of_N m) ltac:(lia)).
  lia.
Qed.

(** ** Trial division decides primality *)

Lemma no_divisor_sound (fuel : nat) (d p : Z) :
  no_divisor fuel d p = true -> 0 < d -> Z.sqrt p < d + Z.of_nat fuel ->
  0 <= p ->
  forall k, d <= k -> k * k <= p -> ~ (k | p).
Proof.
  revert d. induction fuel as [|fuel IH]; intros d Hnd Hd Hfuel Hp k Hk Hkk.
  - exfalso. assert (k <= Z.sqrt p) by (apply Z.sqrt_le_square; lia). lia.
  - simpl in Hnd.
    destruct (Z.ltb_spec p (d * d)); [nia|].
    destruct (Z.eqb_spec (p mod d) 0) as [|Hmod]; [discriminate|].
    destruct (Z.eq_dec k d) as [-> | Hne].
    + intros Hdiv. apply Hmod. apply Z.mod_divide in Hdiv; lia.
    + apply (IH (d + 1)); auto; lia.
Qed.

Lemma no_divisor_complete (fuel : nat) (d p : Z) :
  Z.prime p -> 1 < d -> no_divisor fuel d p = true.
Proof.
  intros [Hp1 Hp]. revert d.
  induction fuel as [|fuel IH]; intros d Hd; [reflexivity|].
  simpl. destruct (Z.ltb_spec p (d * d)); [reflexivity|].
  destruct (Z.eqb_spec (p mod d) 0) as [Hmod|]; [|apply IH; lia].
  exfalso. apply (Hp d); [nia|]. apply Z.mod_divide; lia.
Qed.

Lemma BN_is_prime_spec (p : BIGNUM) :
  BN_is_prime p = true <-> Z.prime (Z.of_N p).
Proof.
  unfold BN_is_prime. rewrite andb_true_iff, Z.ltb_lt. split.
  - intros [H1 Hnd]. split; [assumption|]. intros k Hk [j Hj].
    assert (Hjpos : 1 < j) by nia.
    assert (Hsound := no_divisor_sound _ _ _ Hnd ltac:(lia)).
    rewrite Z2Nat.id in Hsound by apply Z.sqrt_nonneg.
    specialize (Hsound ltac:(lia) ltac:(lia)).
    destruct (Z.le_ge_cases k j).
    + apply (Hsound k); [lia|nia|]. exists j. lia.
    + apply (Hsound j); [lia|nia|]. exists k. lia.
  - intros Hp. split; [apply Z.prime_ge_2 in Hp; lia|].
    apply no_divisor_complete; [assumption|lia].
Qed.

(* ================================================================== *)
(** * The arithmetic of RSA *)

Section Exponents.

(** Fermat: an exponent that is 1 modulo [p - 1] fixes every residue. *)
Lemma pow_mod_prime_mult (p m t : Z) :
  Z.prime p -> 0 <= t -> m ^ (1 + (p - 1) * t) mod p = m mod p.
Proof.
  intros Hp Ht. pose proof (Z.prime_ge_2 _ Hp) as Hp2.
  destruct (Z.eq_dec (m mod p) 0) as [Hz | Hnz].
  - rewrite <- Z.mod_pow_l, Hz. rewrite Z.pow_0_l by nia. reflexivity.
  - rewrite Z.pow_add_r, Z.pow_1_r by nia.
    rewrite Z.pow_mul_r by lia.
    rewrite Z.mul_mod, <- (Z.mod_pow_l (m ^ (p - 1))) by lia.
    rewrite Z.fermat_nz by assumption.
    rewrite Z.pow_1_l by lia.
    rewrite (Z.mod_small 1) by lia.
    rewrite Z.mul_1_r. apply Z.mod_mod. lia.
Qed.

Lemma pow_inverse_mod_prime (p k x m : Z) :
  Z.prime p -> 0 <= x -> (p - 1 | k) -> x mod k = 1 ->
  m ^ x mod p = m mod p.
Proof.
  intros Hp Hx [c Hc] Hmod. pose proof (Z.prime_ge_2 _ Hp) as Hp2.
  destruct (Z.eq_dec k 0) as [-> | Hk].
  { rewrite Z.mod_0_r in Hmod. subst x. now rewrite Z.pow_1_r. }
  pose proof (Z.div_mod x k Hk) as Hdiv. rewrite Hmod in Hdiv.
  assert (Hx0 : x <> 0).
  { intros ->. rewrite Z.mod_0_l in Hmod by assumption. discriminate. }
  remember (x / k) as t eqn:Et.
  assert (Ht : 0 <= c * t) by nia.
  replace x with (1 + (p - 1) * (c * t)) at 1.
  - now apply pow_mod_prime_mult.
  - rewrite Hdiv, Hc. ring.
Qed.

(** The transform with an exponent that is 1 modulo [lcm (p-1) (q-1)]
    is the identity below [p * q]. *)
Lemma rsa_exponents_inverse (p q x m : Z) :
  Z.prime p -> Z.prime q -> p <> q -> 0 <= x ->
  x mod Z.lcm (p - 1) (q - 1) = 1 ->
  0 <= m < p * q -> m ^ x mod (p * q) = m.
Proof.
  intros Hp Hq Hpq Hx Hinv Hm.
  pose proof (Z.prime_ge_2 _ Hp). pose proof (Z.prime_ge_2 _ Hq).
  assert (Ep : m ^ x mod p = m mod p).
  { apply (pow_inverse_mod_prime p (Z.lcm (p - 1) (q - 1)));
      auto using Z.divide_lcm_l. }
  assert (Eq : m ^ x mod q = m mod q).
  { apply (pow_inverse_mod_prime q (Z.lcm (p - 1) (q - 1)));
      auto using Z.divide_lcm_r. }
  assert (Dp : (p | m ^ x - m)).
  { apply Z.mod_divide; [lia|].
    rewrite Zminus_mod, Ep, Z.sub_diag. apply Z.mod_0_l. lia. }
  assert (Dq : (q | m ^ x - m)).
  { apply Z.mod_divide; [lia|].
    rewrite Zminus_mod, Eq, Z.sub_diag. apply Z.mod_0_l. lia. }
  assert (Hcop : Z.gcd p q = 1).
  { apply Z.coprime_prime_l; [assumption|]. intros Hd.
    apply Z.divide_prime_prime in Hd; auto. }
  assert (Dn : (p * q | m ^ x - m)).
  { destruct Dp as [a Ha]. rewrite Ha, Z.mul_comm in Dq.
    apply Z.gauss in Dq; [|rewrite Z.gcd_comm; exact Hcop].
    destruct Dq as [b ->]. exists b. rewrite Ha. ring. }
  destruct Dn as [c Hc].
  replace (m ^ x) with (m + c * (p * q)) by lia.
  rewrite Z.mod_add by nia. apply Z.mod_small. lia.
Qed.

End Exponents.

(** ** The size of a modulus *)

Lemma RSA_size_nonneg (r : RSA) : 0 <= RSA_size r.
Proof. unfold RSA_size, BN_num_bytes, BN_num_bits. apply Z.div_pos; lia. Qed.

Lemma num_bytes_is_ceil (a : BIGNUM) :
  is_ceil_div8 (BN_num_bits a) (BN_num_bytes a).
Proof.
  unfold is_ceil_div8, BN_num_bytes.
  pose proof (Z.div_mod (BN_num_bits a + 7) 8 ltac:(lia)).
  pose proof (Z.mod_pos_bound (BN_num_bits a + 7) 8 ltac:(lia)). lia.
Qed.

Lemma modulus_lt_pow_size (r : RSA) :
  (rsa_n r < 256 ^ N.of_nat (Z.to_nat (RSA_size r)))%N.
Proof.
  pose proof (RSA_size_nonneg r) as H0.
  unfold RSA_size, BN_num_bytes, BN_num_bits in *.
  set (s := N.size (rsa_n r)) in *.
  pose proof (N.size_gt (rsa_n r)) as Hgt. fold s in Hgt.
  eapply N.lt_le_trans; [exact Hgt|].
  replace 256%N with (2 ^ 8)%N by reflexivity.
  rewrite <- N.pow_mul_r. apply N.pow_le_mono_r; [lia|].
  pose proof (Z.mod_pos_bound (Z.of_N s + 7) 8 ltac:(lia)).
  pose proof (Z.div_mod (Z.of_N s + 7) 8 ltac:(lia)).
  lia.
Qed.

Lemma pow_pred_size_le_modulus (r : RSA) :
  1 <= RSA_size r ->
  (256 ^ N.of_nat (Z.to_nat (RSA_size r) - 1) <= rsa_n r)%N.
Proof.
  intros H1. unfold RSA_size, BN_num_bytes, BN_num_bits in *.
  set (s := N.size (rsa_n r)) in *.
  pose proof (Z.div_mod (Z.of_N s + 7) 8 ltac:(lia)) as Hdm.
  pose proof (Z.mod_pos_bound (Z.of_N s + 7) 8 ltac:(lia)) as Hmb.
  assert (Hs : (1 <= s)%N) by lia.
  assert (Hn : rsa_n r <> 0%N).
  { intros E. subst s. rewrite E in Hs. simpl in Hs. lia. }
  pose proof (N.size_le (rsa_n r)) as Hle. fold s in Hle.
  replace 256%N with (2 ^ 8)%N by reflexivity.
  rewrite <- N.pow_mul_r.
  assert (Hpow : (2 ^ (8 * N.of_nat (Z.to_nat ((Z.of_N s + 7) / 8) - 1))
                  <= 2 ^ (s - 1))%N).
  { apply N.pow_le_mono_r; lia. }
  assert (Hs1 : (2 ^ s = 2 * 2 ^ (s - 1))%N).
  { rewrite <- N.pow_succ_r'. f_equal. lia. }
  lia.
Qed.

(* ================================================================== *)
(** * Lucas certificates are sound *)

(** A divisor above 1 of a product of primes has one of them as a
    factor. *)
Lemma prime_factor_of_divisor (fs : list Z) (c : Z) :
  Forall Z.prime fs -> 1 < c -> (c | fold_right Z.mul 1 fs) ->
  exists q, In q fs /\ (q | c).
Proof.
  intros Hfs Hc. induction Hfs as [| q fs Hq Hfs IH]; simpl; intros Hd.
  - apply Z.divide_1_r in Hd. lia.
  - destruct (Z.eq_dec (Z.gcd c q) 1) as [Hg | Hg].
    + apply Z.gauss in Hd; [|exact Hg].
      destruct (IH Hd) as (q' & Hin & Hq'). exists q'. auto.
    + exists q. split; [now left|].
      pose proof (Z.gcd_divide_r c q) as Hgq.
      apply Z.divide_prime_r in Hgq; [|assumption].
      pose proof (Z.gcd_nonneg c q). pose proof (Z.prime_ge_2 _ Hq).
      assert (Z.gcd c q = q) as E by lia.
      rewrite <- E. apply Z.gcd_divide_l.
Qed.

Section Lucas.

Variables (n a : Z) (fs : list Z).
Hypothesis Hn : 1 < n.
Hypothesis Hfs : Forall Z.prime fs.
Hypothesis Hprod : fold_right Z.mul 1 fs = n - 1.
Hypothesis Ha1 : a ^ (n - 1) mod n = 1.
Hypothesis Haq : forall q, In q fs -> a ^ ((n - 1) / q) mod n <> 1.

Lemma lucas_coprime : Z.coprime a n.
Proof.
  unfold Z.coprime.
  pose proof (Z.gcd_divide_l a n) as Hga.
  pose proof (Z.gcd_divide_r a n) as Hgn.
  pose proof (Z.gcd_nonneg a n) as Hg0.
  assert (Hgp : (Z.gcd a n | a ^ (n - 1))).
  { eapply Z.divide_trans; [exact Hga|]. apply Z.divide_pow_same_r. lia. }
  pose proof (Z.div_mod (a ^ (n - 1)) n ltac:(lia)) as Hdm.
  rewrite Ha1 in Hdm.
  assert (H1 : (Z.gcd a n | 1)).
  { replace 1 with (a ^ (n - 1) - n * (a ^ (n - 1) / n)) by lia.
    apply Z.divide_sub_r; [assumption|]. now apply Z.divide_mul_l. }
  apply Z.divide_1_r in H1. lia.
Qed.

(** The base, as a unit modulo [n]. *)
Let A : Zstar n := Zstar.of_Zmod (Zmod.of_Z n a).

Lemma lucas_pow_unsigned z :
  0 <= z -> Zmod.unsigned (Zstar.to_Zmod (Zstar.pow A z)) = a ^ z mod n.
Proof.
  intros Hz. unfold A.
  rewrite Zstar.to_Zmod_pow, Zmod.unsigned_pow_nonneg_r by assumption.
  rewrite Zstar.to_Zmod_of_Zmod.
  - rewrite Zmod.unsigned_of_Z. apply Z.mod_pow_l.
  - rewrite Zmod.unsigned_of_Z. apply Z.coprime_mod_l_iff, lucas_coprime.
Qed.

Lemma lucas_pow_one z :
  0 <= z -> Zstar.pow A z = Zstar.one <-> a ^ z mod n = 1.
Proof.
  intros Hz. rewrite <- lucas_pow_unsigned by assumption. split.
  - intros ->. rewrite Zstar.to_Zmod_1. apply Zmod.unsigned_1_pos. lia.
  - intros H. apply Zstar.to_Zmod_inj, Zmod.unsigned_inj.
    rewrite H, Zstar.to_Zmod_1. symmetry. apply Zmod.unsigned_1_pos. lia.
Qed.

(** The number of units modulo [n]. *)
Let phi := Z.of_nat (length (Zstar.elements n)).

(** The order of the base is [n - 1], and divides the number of units
    (Euler). *)
Lemma lucas_order_full : (n - 1 | phi).
Proof.
  destruct (Z.gcd_bezout (n - 1) phi _ eq_refl) as (u & v & Huv).
  set (g := Z.gcd (n - 1) phi) in *.
  assert (Hg1 : Zstar.pow A g = Zstar.one).
  { rewrite <- Huv, Zstar.pow_add_r.
    rewrite (Z.mul_comm u), (Z.mul_comm v), !Zstar.pow_mul_r.
    rewrite (proj2 (lucas_pow_one (n - 1) ltac:(lia)) Ha1).
    unfold phi. rewrite Zstar.euler, !Zstar.pow_1_l.
    apply Zstar.to_Zmod_inj. rewrite Zstar.to_Zmod_mul, Zstar.to_Zmod_1.
    apply Zmod.mul_1_l. }
  pose proof (Z.gcd_divide_l (n - 1) phi) as [c Hc]. fold g in Hc.
  pose proof (Z.gcd_nonneg (n - 1) phi) as Hg0. fold g in Hg0.
  assert (Hgpos : 0 < g).
  { destruct (Z.eq_dec g 0) as [E | E]; [rewrite E, Z.mul_0_r in Hc|]; lia. }
  assert (Hcpos : 0 < c) by nia.
  destruct (Z.eq_dec c 1) as [-> | Hc1].
  - rewrite Hc, Z.mul_1_l. apply Z.gcd_divide_r.
  - exfalso.
    destruct (prime_factor_of_divisor fs c Hfs ltac:(lia))
      as (q & Hin & c' & Hq).
    { rewrite Hprod, Hc. now apply Z.divide_mul_l. }
    pose proof (proj1 (List.Forall_forall _ _) Hfs q Hin) as Hqp.
    apply Z.prime_ge_2 in Hqp.
    assert (Hdiv : (n - 1) / q = c' * g).
    { rewrite Hc, Hq. replace (c' * q * g) with (c' * g * q) by ring.
      apply Z.div_mul. lia. }
    apply (Haq q Hin). rewrite Hdiv.
    apply lucas_pow_one; [nia|].
    rewrite Z.mul_comm, Zstar.pow_mul_r, Hg1. apply Zstar.pow_1_l.
Qed.

(** So every residue but 0 is a unit: [n] is prime. *)
Theorem lucas_prime : Z.prime n.
Proof.
  pose proof lucas_order_full as [c Hc].
  assert (Hphi : n - 1 <= phi).
  { assert (0 < phi).
    { unfold phi. pose proof (Zstar.in_elements A) as HA.
      destruct (Zstar.elements n); [destruct HA | simpl length; lia]. }
    assert (1 <= c) by (destruct (Z.le_gt_cases c 0); [exfalso; nia | lia]).
    rewrite Hc. nia. }
  split; [assumption|]. intros k Hk Hd.
  pose proof (filter_length
                (fun x : Zmod n => Z.gcd (Zmod.unsigned x) n =? 1)
                (Zmod.elements n)) as HL.
  rewrite Zmod.length_elements in HL.
  assert (Hinv : Zmod.invertibles n
                 = List.filter
                     (fun x : Zmod n => Z.gcd (Zmod.unsigned x) n =? 1)
                     (Zmod.elements n)).
  { unfold Zmod.invertibles. destruct (Z.eqb_spec n 0); [lia|reflexivity]. }
  rewrite <- Hinv, <- Zstar.to_Zmod_elements, length_map in HL.
  assert (Hbad :
            (2 <= length
                    (List.filter
                       (fun x : Zmod n =>
                          negb (Z.gcd (Zmod.unsigned x) n =? 1)%Z)
                       (Zmod.elements n)))%nat).
  { apply (NoDup_incl_length (l := [Zmod.of_Z n 0; Zmod.of_Z n k])).
    - constructor; [|constructor; [intros []|constructor]].
      intros [E | []]. symmetry in E. apply Zmod.of_Z_inj in E.
      rewrite Z.mod_0_l, Z.mod_small in E by lia. lia.
    - intros x Hx. apply filter_In. split; [apply Zmod.in_elements; lia|].
      destruct Hx as [<- | [<- | []]]; rewrite Zmod.unsigned_of_Z.
      + rewrite Z.mod_0_l by lia. rewrite Z.gcd_0_l.
        destruct (Z.eqb_spec (Z.abs n) 1); [lia|reflexivity].
      + rewrite Z.mod_small by lia.
        rewrite (proj1 (Z.divide_gcd_iff k n ltac:(lia)) Hd).
        destruct (Z.eqb_spec k 1); [lia|reflexivity]. }
  unfold phi in Hphi. lia.
Qed.

End Lucas.

Lemma expand_factors_product (fs : list (Z * nat)) :
  fold_right Z.mul 1 (expand_factors fs)
  = fold_right (fun qe acc => fst qe ^ Z.of_nat (snd qe) * acc) 1 fs.
Proof.
  induction fs as [|[q e] fs IH]; [reflexivity|].
  cbn [expand_factors flat_map fold_right fst snd].
  fold (expand_factors fs). rewrite <- IH. clear IH.
  induction e as [|e IHe].
  - simpl. lia.
  - cbn [repeat app fold_right]. rewrite IHe, Nat2Z.inj_succ, Z.pow_succ_r by lia.
    ring.
Qed.

Lemma expand_factors_In (fs : list (Z * nat)) (q : Z) :
  In q (expand_factors fs) -> exists e, In (q, e) fs.
Proof.
  unfold expand_factors. rewrite in_flat_map.
  intros ([q' e] & Hin & Hq). apply repeat_spec in Hq. cbn in Hq. subst q.
  eauto.
Qed.

Lemma lucas_certificate_sound (n a : Z) (fs : list (Z * nat)) :
  lucas_certificate n a fs = true -> Z.prime n.
Proof.
  unfold lucas_certificate. rewrite !andb_true_iff.
  intros [[[[[Hn Hpr] Hpos] Hprod] Ha] Hq].
  apply Z.ltb_lt in Hn. apply Z.eqb_eq in Hprod, Ha.
  rewrite Zpow_mod_correct in Ha by lia.
  rewrite forallb_forall in Hpr, Hpos, Hq.
  apply (lucas_prime n a (expand_factors fs)); auto.
  - apply List.Forall_forall. intros q Hin.
    apply expand_factors_In in Hin as (e & Hin).
    specialize (Hpr _ Hin). specialize (Hpos _ Hin). cbn [fst] in Hpr, Hpos.
    apply Z.ltb_lt in Hpos. apply BN_is_prime_spec in Hpr.
    now rewrite Z2N.id in Hpr by lia.
  - now rewrite expand_factors_product.
  - intros q Hin E. apply expand_factors_In in Hin as (e & Hin).
    specialize (Hq _ Hin). cbn [fst] in Hq.
    rewrite Zpow_mod_correct in Hq by lia.
    rewrite E in Hq. discriminate.
Qed.

(** ** The keys of the model are consistent *)

Ltac by_computation := vm_cast_no_check (@eq_refl bool true).

Lemma K_p_prime : Z.prime K_p.
Proof. apply (lucas_certificate_sound K_p 3 K_p_factors). by_computation. Qed.

Lemma K_q_prime : Z.prime K_q.
Proof. apply (lucas_certificate_sound K_q 3 K_q_factors). by_computation. Qed.

Lemma S_p_prime : Z.prime S_p.
Proof. apply (lucas_certificate_sound S_p 3 S_p_factors). by_computation. Qed.

Lemma S_q_prime : Z.prime S_q.
Proof. apply (lucas_certificate_sound S_q 3 S_q_factors). by_computation. Qed.

Lemma key384_consistent : consistent key384.
Proof.
  exists (Z.to_N K_p), (Z.to_N K_q), (Z.to_N K_d).
  split; [reflexivity|]. split; [reflexivity|]. split; [reflexivity|].
  split; [exact K_p_prime|]. split; [exact K_q_prime|].
  split; [vm_compute; reflexivity|].
  split; [vm_compute; reflexivity|].
  unfold crt_consistent. cbn [rsa_dmp1 rsa_dmq1 rsa_iqmp key384].
  repeat split; vm_compute; reflexivity.
Qed.

Lemma key96_consistent : consistent key96.
Proof.
  exists (Z.to_N S_p), (Z.to_N S_q), 8295696415594577921%N.
  split; [reflexivity|]. split; [reflexivity|]. split; [reflexivity|].
  split; [exact S_p_prime|]. split; [exact S_q_prime|].
  split; [vm_compute; reflexivity|].
  split; [vm_compute; reflexivity|].
  unfold crt_consistent. cbn [rsa_dmp1 rsa_dmq1 rsa_iqmp key96].
  repeat split; vm_compute; reflexivity.
Qed.

Lemma key96_distinct : distinct_primes key96.
Proof. unfold distinct_primes. vm_compute. discriminate. Qed.

Lemma key384_distinct : distinct_primes key384.
Proof. unfold distinct_primes. vm_compute. discriminate. Qed.

(* ================================================================== *)
(** * The transforms of the library undo each other *)

Section BlockType1.

Lemma skip_ff_repeat (j : nat) (data : list byte) :
  skip_ff (repeat xff j ++ x00 :: data) = (j, x00 :: data).
Proof. induction j as [|j IH]; simpl; [|rewrite IH]; reflexivity. Qed.

Lemma padding_add_length (tlen : nat) (from em : list byte) :
  RSA_padding_add_PKCS1_type_1 tlen from = Some em -> length em = tlen.
Proof.
  unfold RSA_padding_add_PKCS1_type_1, RSA_PKCS1_PADDING_SIZE.
  destruct (Nat.ltb_spec tlen (length from + 11)); [discriminate|].
  intros [= <-]. cbn [length].
  rewrite length_app, repeat_length. cbn [length]. lia.
Qed.

Lemma padding_check_add (tlen : nat) (from em : list byte) :
  RSA_padding_add_PKCS1_type_1 tlen from = Some em ->
  RSA_padding_check_PKCS1_type_1 em = Some from.
Proof.
  unfold RSA_padding_add_PKCS1_type_1, RSA_PKCS1_PADDING_SIZE.
  destruct (Nat.ltb_spec tlen (length from + 11)); [discriminate|].
  intros [= <-]. unfold RSA_padding_check_PKCS1_type_1.
  rewrite skip_ff_repeat.
  destruct (Nat.ltb_spec (tlen - 3 - length from) 8); [lia|reflexivity].
Qed.

(** A padded block starts with a zero byte: as a number it stays below
    [256 ^ (tlen - 1)]. *)
Lemma padding_add_bound (tlen : nat) (from em : list byte) :
  RSA_padding_add_PKCS1_type_1 tlen from = Some em ->
  (BN_bin2bn em < 256 ^ N.of_nat (tlen - 1))%N.
Proof.
  intros H. pose proof (padding_add_length _ _ _ H) as Hlen. revert H Hlen.
  unfold RSA_padding_add_PKCS1_type_1.
  destruct (_ <? _)%nat; [discriminate|]. intros [= <-] Hlen.
  rewrite bin2bn_cons. cbn [length] in Hlen.
  replace (tlen - 1)%nat
    with (length (x01 :: repeat xff (tlen - 3 - length from) ++ x00 :: from))
    by (cbn [length]; lia).
  pose proof (bin2bn_bound
                (x01 :: repeat xff (tlen - 3 - length from) ++ x00 :: from)).
  simpl Byte.to_N. lia.
Qed.

End BlockType1.

Lemma modulus_of_consistent (r : RSA) (p q : BIGNUM) :
  Z.prime (Z.of_N p) -> Z.prime (Z.of_N q) -> rsa_n r = (p * q)%N ->
  rsa_n r <> 0%N.
Proof.
  intros Hp Hq Hn. apply Z.prime_ge_2 in Hp, Hq. rewrite Hn. nia.
Qed.

Lemma mod_exp_inverse (r : RSA) (p q d f : BIGNUM) :
  Z.prime (Z.of_N p) -> Z.prime (Z.of_N q) -> p <> q ->
  rsa_n r = (p * q)%N ->
  (Z.of_N d * Z.of_N (rsa_e r)) mod Z.lcm (Z.of_N p - 1) (Z.of_N q - 1) = 1 ->
  (f < rsa_n r)%N ->
  BN_mod_exp (BN_mod_exp f d (rsa_n r)) (rsa_e r) (rsa_n r) = f.
Proof.
  intros Hp Hq Hpq Hn Hde Hf.
  pose proof (modulus_of_consistent r p q Hp Hq Hn) as Hn0.
  apply N2Z.inj. rewrite !BN_mod_exp_spec by assumption.
  rewrite Z.mod_pow_l, <- Z.pow_mul_r by lia.
  rewrite Hn, N2Z.inj_mul.
  apply rsa_exponents_inverse; auto; try lia.
Qed.

(** [RSA_public_decrypt] takes back what [RSA_private_encrypt] made,
    on a consistent key with two distinct primes. *)
Lemma RSA_private_encrypt_public_decrypt (r : RSA) (m : list byte) :
  consistent r -> distinct_primes r ->
  Z.of_nat (length m) <= RSA_size r - Z.of_nat RSA_PKCS1_PADDING_SIZE ->
  exists c,
    RSA_private_encrypt m r RSA_PKCS1_PADDING = inr c /\
    Z.of_nat (length c) = RSA_size r /\
    RSA_public_decrypt c r RSA_PKCS1_PADDING = inr m.
Proof.
  intros (p & q & d & Ep & Eq & Ed & Hp & Hq & Hn & Hde & _) Hdist Hlen.
  unfold distinct_primes in Hdist. rewrite Ep, Eq in Hdist.
  assert (Hpq : p <> q) by congruence.
  pose proof (modulus_of_consistent r p q Hp Hq Hn) as Hn0.
  unfold RSA_PKCS1_PADDING_SIZE in Hlen.
  set (num := Z.to_nat (RSA_size r)).
  assert (Hnum : (length m + 11 <= num)%nat) by (unfold num; lia).
  destruct (RSA_padding_add_PKCS1_type_1 num m) as [em|] eqn:Hadd.
  2:{ unfold RSA_padding_add_PKCS1_type_1, RSA_PKCS1_PADDING_SIZE in Hadd.
      destruct (Nat.ltb_spec num (length m + 11)); [lia|discriminate]. }
  pose proof (padding_add_length _ _ _ Hadd) as Hemlen.
  pose proof (padding_add_bound _ _ _ Hadd) as Hembound.
  pose proof (padding_check_add _ _ _ Hadd) as Hcheck.
  assert (Hfn : (BN_bin2bn em < rsa_n r)%N).
  { eapply N.lt_le_trans; [exact Hembound|].
    apply pow_pred_size_le_modulus. lia. }
  exists (BN_bn2binpad (BN_mod_exp (BN_bin2bn em) d (rsa_n r)) num).
  split; [|split].
  - unfold RSA_private_encrypt. fold num.
    cbn [Z.eqb RSA_PKCS1_PADDING Pos.eqb].
    rewrite Hadd. destruct (N.leb_spec (rsa_n r) (BN_bin2bn em)); [lia|].
    now rewrite Ed.
  - rewrite length_bn2binpad. unfold num. pose proof (RSA_size_nonneg r). lia.
  - unfold RSA_public_decrypt. fold num. rewrite length_bn2binpad.
    rewrite Nat.ltb_irrefl.
    pose proof (BN_mod_exp_lt (BN_bin2bn em) d (rsa_n r) Hn0) as Hlt.
    rewrite bin2bn_bn2binpad
      by (eapply N.lt_trans; [exact Hlt|apply modulus_lt_pow_size]).
    destruct (N.leb_spec (rsa_n r) (BN_mod_exp (BN_bin2bn em) d (rsa_n r)));
      [lia|].
    rewrite (mod_exp_inverse r p q d) by assumption.
    cbn [Z.eqb RSA_PKCS1_PADDING Pos.eqb].
    rewrite <- Hemlen, bn2binpad_bin2bn, Hcheck. reflexivity.
Qed.

(** ** Signing and verifying *)

Lemma bytes_eqb_refl (s : list byte) : bytes_eqb s s = true.
Proof. unfold bytes_eqb. destruct (List.list_eq_dec _ s s); congruence. Qed.

Lemma encode_digest_info_ok (type : Z) (prefix m : list byte) (dlen : nat) :
  digest_info type = Some (prefix, dlen) -> length m = dlen ->
  encode_digest_info type m = inr (prefix ++ m).
Proof.
  intros Hdi Hlen. unfold encode_digest_info. rewrite Hdi, Hlen.
  now rewrite Nat.eqb_refl.
Qed.

Lemma RSA_sign_verify (r : RSA) (type : Z) (prefix m : list byte)
    (dlen : nat) :
  consistent r -> distinct_primes r ->
  digest_info type = Some (prefix, dlen) -> length m = dlen ->
  Z.of_nat (length prefix + dlen) + Z.of_nat RSA_PKCS1_PADDING_SIZE
    <= RSA_size r ->
  exists s,
    RSA_sign type m r = inr s /\
    Z.of_nat (length s) = RSA_size r /\
    RSA_verify type m s r = inr tt.
Proof.
  intros Hc Hd Hdi Hlen Hsize.
  pose proof (encode_digest_info_ok _ _ _ _ Hdi Hlen) as Henc.
  assert (Hfit : Z.of_nat (length (prefix ++ m))
                 <= RSA_size r - Z.of_nat RSA_PKCS1_PADDING_SIZE).
  { rewrite length_app, Hlen. lia. }
  destruct (RSA_private_encrypt_public_decrypt r (prefix ++ m) Hc Hd Hfit)
    as (s & Hs & Hslen & Hdec).
  exists s. split; [|split; [exact Hslen|]].
  - unfold RSA_sign. rewrite Henc.
    destruct (Z.ltb_spec (RSA_size r - Z.of_nat RSA_PKCS1_PADDING_SIZE)
                (Z.of_nat (length (prefix ++ m)))); [lia|exact Hs].
  - unfold RSA_verify. rewrite Hslen, Z.eqb_refl. cbn [negb].
    rewrite Hdec, Henc, bytes_eqb_refl. reflexivity.
Qed.

(** A signature has the size of the modulus. *)
Lemma RSA_sign_length (r : RSA) (type : Z) (m s : list byte) :
  RSA_sign type m r = inr s -> Z.of_nat (length s) = RSA_size r.
Proof.
  unfold RSA_sign, RSA_private_encrypt.
  destruct (encode_digest_info type m) as [e|di]; [discriminate|].
  destruct (_ <? _); [discriminate|].
  cbn [Z.eqb RSA_PKCS1_PADDING Pos.eqb].
  destruct (RSA_padding_add_PKCS1_type_1 _ di); [|discriminate].
  destruct (_ <=? _)%N; [discriminate|].
  destruct (rsa_d r); [|discriminate].
  intros [= <-]. rewrite length_bn2binpad.
  pose proof (RSA_size_nonneg r). lia.
Qed.

(* ================================================================== *)
(** * The calls of the handle *)

Section Calls.

Lemma refers_to_unique (w : world) (h : rsa_key) (r r' : RSA) :
  refers_to w h r -> refers_to w h r' -> r = r'.
Proof. intros (l & Hl & Hr) (l' & Hl' & Hr'). congruence. Qed.

Lemma refers_handle1 (r : RSA) : refers_to (world_with r) handle1 r.
Proof. exists 1%positive. split; reflexivity. Qed.

Lemma deref_refers (w : world) (h : rsa_key) (r : RSA) :
  refers_to w h r -> deref (raw h) w = Returns r w.
Proof. intros (l & Hl & Hr). unfold deref. now rewrite Hl, Hr. Qed.

Lemma size_refers (w : world) (h : rsa_key) (r : RSA) :
  refers_to w h r -> size h w = Returns (RSA_size r) w.
Proof. intros H. unfold size, bind. now rewrite (deref_refers _ _ _ H). Qed.

Lemma firstn_write_buffer (out data : list byte) :
  firstn (length data) (write_buffer out data) = data.
Proof.
  unfold write_buffer. rewrite firstn_app, Nat.sub_diag, firstn_all.
  simpl. apply app_nil_r.
Qed.

Lemma length_write_buffer (out data : list byte) :
  (length data <= length out)%nat ->
  length (write_buffer out data) = length out.
Proof.
  intros H. unfold write_buffer. rewrite length_app, length_skipn. lia.
Qed.

Lemma resize_exact (v : list byte) : resize (length v) v = v.
Proof. unfold resize. rewrite firstn_all, Nat.sub_diag. apply app_nil_r. Qed.

Lemma length_resize (n : nat) (v : list byte) : length (resize n v) = n.
Proof.
  unfold resize. rewrite length_app, length_firstn, repeat_length. lia.
Qed.

Lemma transform_returns (w : world) (h : rsa_key) (r : RSA) needed call
    (out data : list byte) :
  refers_to w h r -> needed r <= Z.of_nat (length out) ->
  call r = inr data ->
  transform h needed call out w
  = Returns (write_buffer out data, Z.of_nat (length data)) w.
Proof.
  intros Href Hout Hcall. unfold transform, bind.
  rewrite (deref_refers _ _ _ Href).
  destruct (Z.ltb_spec (Z.of_nat (length out)) (needed r)); [lia|].
  now rewrite Hcall.
Qed.

Lemma transform_inv (w w' : world) (h : rsa_key) needed call
    (out out' : list byte) (n : Z) :
  transform h needed call out w = Returns (out', n) w' ->
  exists r data,
    refers_to w h r /\ needed r <= Z.of_nat (length out) /\
    call r = inr data /\ out' = write_buffer out data /\
    n = Z.of_nat (length data) /\ w' = w.
Proof.
  unfold transform, bind, deref.
  destruct (raw h) as [l|] eqn:Hl; [|discriminate].
  destruct (heap w !! l) as [r|] eqn:Hr; [|discriminate].
  destruct (Z.ltb_spec (Z.of_nat (length out)) (needed r)); [discriminate|].
  destruct (call r) as [e|data] eqn:Hcall; [discriminate|].
  intros [= <- <- <-]. exists r, data. repeat split; auto.
  exists l. auto.
Qed.

(** The convenience [sign] is the buffer [sign] on a zeroed vector of
    [size()] bytes, cut to the count that call returns. *)
Lemma sign_vector_unfold (h : rsa_key) (buf : list byte) (type : Z)
    (w : world) (r : RSA) :
  refers_to w h r ->
  sign_vector h buf type w =
  match sign h (repeat x00 (Z.to_nat (RSA_size r))) buf type w with
  | Returns written w' =>
      Returns (resize (Z.to_nat (snd written)) (fst written)) w'
  | Throws e w' => Throws e w'
  | Undefined => Undefined
  end.
Proof.
  intros Href. unfold sign_vector, bind at 1.
  rewrite (size_refers _ _ _ Href). unfold bind, ret.
  destruct (sign h _ buf type w); reflexivity.
Qed.

Lemma sign_vector_returns (w : world) (h : rsa_key) (r : RSA)
    (buf s : list byte) (type : Z) :
  refers_to w h r -> RSA_sign type buf r = inr s ->
  sign_vector h buf type w = Returns s w.
Proof.
  intros Href Hs. pose proof (RSA_sign_length _ _ _ _ Hs) as Hlen.
  rewrite (sign_vector_unfold h buf type w r Href).
  unfold sign.
  rewrite (transform_returns w h r RSA_size _ _ s Href);
    [|rewrite repeat_length; pose proof (RSA_size_nonneg r); lia|exact Hs].
  cbn [fst snd]. f_equal.
  rewrite Nat2Z.id. unfold write_buffer.
  rewrite skipn_all2 by (rewrite repeat_length; lia).
  rewrite app_nil_r. apply resize_exact.
Qed.

Lemma sign_vector_key384 :
  exists v, sign_vector handle1 digest20 NID_sha1 (world_with key384)
            = Returns v (world_with key384).
Proof.
  destruct (RSA_sign_verify key384 NID_sha1 _ digest20 20
              key384_consistent key384_distinct eq_refl eq_refl)
    as (s & Hs & _).
  - vm_compute. discriminate.
  - exists s. apply (sign_vector_returns _ _ key384); [|exact Hs].
    apply refers_handle1.
Qed.

End Calls.

(* ================================================================== *)
(** * Round trips *)







(* ================================================================== *)
(** * Sizes *)



Lemma generate_private_key_spec gen (num e : Z) (w : world) :
  generate_private_key gen num e w =
  match gen num e w with
  | (Some l, w') =>
      Returns (mk_rsa_key (Some l)) (set_use_count <[l := 1%nat]> w')
  | (None, w') =>
      Throws (cryptographic_exception (head (err_queue w')))
             (set_err_queue [] w')
  end.
Proof.
  unfold generate_private_key, bind at 1.
  destruct (gen num e w) as [[l|] w']; reflexivity.
Qed.

Section Generation.

(** The generator of the library, with the one promise of
    RSA_generate_key(3) that matters here: the modulus of the key it
    returns has [num] bits. *)
Variable RSA_generate_key : Z -> Z -> world -> option loc * world.
Hypothesis generated_modulus_bits :
  forall num e w l w',
    RSA_generate_key num e w = (Some l, w') ->
    exists r, heap w' !! l = Some r /\ BN_num_bits (rsa_n r) = num.

(** C2. For every key handle generated with a modulus of [num] bits,
    [size()] returns the ceiling of [num / 8]. *)
Theorem size_of_generated_key (num e : Z) (w : world) (h : rsa_key)
    (w' : world) :
  generate_private_key RSA_generate_key num e w = Returns h w' ->
  exists s, size h w' = Returns s w' /\ is_ceil_div8 num s.
Proof.
  rewrite generate_private_key_spec.
  destruct (RSA_generate_key num e w) as [[l|] w1] eqn:Hg; [|discriminate].
  intros [= <- <-].
  destruct (generated_modulus_bits _ _ _ _ _ Hg) as (r & Hr & Hbits).
  exists (RSA_size r). split.
  - apply size_refers. exists l. split; [reflexivity|exact Hr].
  - rewrite <- Hbits. apply num_bytes_is_ceil.
Qed.

End Generation.

Lemma one_key_generator_bits (num e : Z) (w : world) (l : loc) (w' : world) :
  one_key_generator num e w = (Some l, w') ->
  exists r, heap w' !! l = Some r /\ BN_num_bits (rsa_n r) = num.
Proof.
  unfold one_key_generator.
  destruct (Z.eqb_spec num 96) as [-> |]; [|discriminate].
  destruct (e =? 65537); [|discriminate].
  cbn [andb]. intros [= <- <-]. exists key96. split.
  - cbn [heap set_heap]. apply lookup_insert_eq.
  - reflexivity.
Qed.

(** The key generated for 96 bits takes 12 bytes. *)
Lemma size_of_generated_key96 :
  exists s,
    size (mk_rsa_key (Some 2%positive))
         (set_use_count <[2%positive := 1%nat]>
            (set_heap <[2%positive := key96]> (world_with key384)))
    = Returns s
        (set_use_count <[2%positive := 1%nat]>
           (set_heap <[2%positive := key96]> (world_with key384))) /\
    is_ceil_div8 96 s.
Proof.
  apply (size_of_generated_key one_key_generator one_key_generator_bits
           96 65537 (world_with key384)).
  vm_compute. reflexivity.
Defined.

(* ================================================================== *)
(** * The consistency check *)

Section Check.

Lemma app_if_nil (b : bool) (e : ERR) (rest : list ERR) :
  (if b then [] else [e]) ++ rest = [] <-> b = true /\ rest = [].
Proof. destruct b; simpl; intuition congruence. Qed.

Lemma if_nil (b : bool) (e : ERR) :
  (if b then [] else [e]) = [] <-> b = true.
Proof. destruct b; simpl; intuition congruence. Qed.

Lemma check_crt_spec (r : RSA) (d p q : BIGNUM) :
  check_crt r d p q = [] <-> crt_consistent r d p q.
Proof.
  unfold check_crt, crt_consistent.
  destruct (rsa_dmp1 r), (rsa_dmq1 r), (rsa_iqmp r); try tauto.
  rewrite !app_if_nil, if_nil, andb_true_iff, !Z.eqb_eq, Z.ltb_lt.
  tauto.
Qed.

(** [RSA_check_key] queues no reason exactly on a consistent record. *)
Lemma check_key_errors_spec (r : RSA) :
  check_key_errors r = [] <-> consistent r.
Proof.
  unfold check_key_errors, consistent.
  destruct (rsa_p r) as [p|];
    [destruct (rsa_q r) as [q|]; [destruct (rsa_d r) as [d|]|]|].
  - rewrite !app_if_nil, !BN_is_prime_spec, N.eqb_eq, Z.eqb_eq,
      check_crt_spec.
    split.
    + intros (? & ? & ? & ? & ?). exists p, q, d. auto 10.
    + intros (p' & q' & d' & [= <-] & [= <-] & [= <-] & ?). tauto.
  - split; [discriminate|]. intros (? & ? & ? & _ & _ & [=] & _).
  - split; [discriminate|]. intros (? & ? & ? & _ & [=] & _).
  - split; [discriminate|]. intros (? & ? & ? & [=] & _).
Qed.

Lemma put_no_errors (w : world) : ERR_put_errors [] w = w.
Proof.
  destruct w. unfold ERR_put_errors, set_err_queue. simpl.
  now rewrite app_nil_r.
Qed.

Lemma check_refers (w : world) (h : rsa_key) (r : RSA) :
  refers_to w h r ->
  check h w =
  match check_key_errors r with
  | [] => Returns tt w
  | errs => Throws (cryptographic_exception (head (err_queue w ++ errs)))
                   (set_err_queue [] w)
  end.
Proof.
  intros Href. unfold check, bind at 1. rewrite (deref_refers _ _ _ Href).
  unfold RSA_check_key. destruct (check_key_errors r) as [|e errs].
  - cbn. now rewrite put_no_errors.
  - reflexivity.
Qed.

Lemma head_app_nonempty (q : list ERR) (e : ERR) (errs : list ERR) :
  exists e', head (q ++ e :: errs) = Some e'.
Proof. destruct q; simpl; eauto. Qed.

End Check.

(** C9. On a handle to a live record, [check()] returns exactly when
    the record carries private material whose parameters are
    consistent; otherwise it throws the exception of the library with a
    reason, and so it does, without crashing, on a public-only record,
    where the reason queued is that a value is missing. *)
Theorem check_iff_consistent (w : world) (h : rsa_key) (r : RSA) :
  refers_to w h r ->
  (check h w = Returns tt w <-> consistent r) /\
  (~ consistent r ->
   exists reason,
     check h w = Throws (cryptographic_exception (Some reason))
                        (set_err_queue [] w)) /\
  (public_only r ->
   check h w = Throws (cryptographic_exception
                         (head (err_queue w ++ [RSA_R_VALUE_MISSING])))
                      (set_err_queue [] w)).
Proof.
  intros Href. rewrite (check_refers _ _ _ Href), <- check_key_errors_spec.
  split; [|split].
  - destruct (check_key_errors r); split; congruence.
  - intros Hne. destruct (check_key_errors r) as [|e errs]; [congruence|].
    destruct (head_app_nonempty (err_queue w) e errs) as (e' & ->). eauto.
  - intros (Hd & Hp & Hq). unfold check_key_errors. now rewrite Hp.
Qed.

(** The 96-bit key passes; the public half of the 384-bit key does not. *)
Lemma check_on_key96_and_public_key :
  check handle1 (world_with key96) = Returns tt (world_with key96) /\
  check handle1 (world_with key384_public)
    = Throws (cryptographic_exception
                (head (err_queue (world_with key384_public)
                       ++ [RSA_R_VALUE_MISSING])))
             (set_err_queue [] (world_with key384_public)).
Proof.
  split.
  - apply (check_iff_consistent (world_with key96) handle1 key96
             (refers_handle1 key96)).
    exact key96_consistent.
  - apply (check_iff_consistent (world_with key384_public) handle1
             key384_public (refers_handle1 key384_public)).
    repeat split.
Defined.

(* ================================================================== *)
(** * Blinding and copies *)

Section Blinding.

Lemma RSA_blinding_off_live (w : world) (l : loc) (r : RSA) :
  heap w !! l = Some r ->
  RSA_blinding_off (Some l) w
  = Returns tt (set_heap (alter (set_blinding false) l) w).
Proof. intros Hr. unfold RSA_blinding_off, bind, deref. now rewrite Hr. Qed.

Lemma RSA_blinding_off_no_throw (p : option loc) (w : world) (e : exn)
    (w' : world) :
  RSA_blinding_off p w <> Throws e w'.
Proof.
  unfold RSA_blinding_off, bind, deref.
  destruct p as [l|]; [|discriminate].
  destruct (heap w !! l); discriminate.
Qed.

Lemma lookup_alter_live (m : gmap loc RSA) (l : loc) (r : RSA)
    (f : RSA -> RSA) :
  m !! l = Some r -> alter f l m !! l = Some (f r).
Proof. intros H. rewrite lookup_alter_eq, H. reflexivity. Qed.

Lemma enable_blinding_live (w : world) (l : loc) (r : RSA) (h : rsa_key)
    (ctx : option BN_CTX) :
  raw h = Some l -> heap w !! l = Some r ->
  enable_blinding h ctx w =
  match allocs_left w with
  | S n =>
      Returns tt
        (set_allocs_left n
           (set_heap (alter (set_blinding true) l)
              (set_heap (alter (set_blinding false) l) w)))
  | O =>
      Throws (cryptographic_exception
                (head (err_queue w ++ [ERR_R_MALLOC_FAILURE])))
             (set_err_queue [] (set_heap (alter (set_blinding false) l) w))
  end.
Proof.
  intros Hl Hr. unfold enable_blinding, RSA_blinding_on, bind at 1 2.
  rewrite Hl, (RSA_blinding_off_live _ _ _ Hr). cbn [allocs_left set_heap].
  destruct (allocs_left w); reflexivity.
Qed.

Lemma enable_blinding_inv (w w' : world) (h : rsa_key)
    (ctx : option BN_CTX) :
  enable_blinding h ctx w = Returns tt w' ->
  exists l r, raw h = Some l /\ heap w !! l = Some r /\
              heap w' !! l = Some (set_blinding true r).
Proof.
  destruct (raw h) as [l|] eqn:Hl.
  - destruct (heap w !! l) as [r|] eqn:Hr.
    + rewrite (enable_blinding_live w l r h ctx Hl Hr).
      destruct (allocs_left w); [discriminate|]. intros [= <-].
      exists l, r. repeat split; auto. cbn [heap set_allocs_left set_heap].
      rewrite (lookup_alter_live _ l (set_blinding false r))
        by (apply lookup_alter_live; exact Hr).
      reflexivity.
    + unfold enable_blinding, RSA_blinding_on, RSA_blinding_off, bind, deref.
      rewrite Hl, Hr. discriminate.
  - unfold enable_blinding, RSA_blinding_on, RSA_blinding_off, bind, deref.
    rewrite Hl. discriminate.
Qed.

Lemma rsa_key_copy_spec (h : rsa_key) (w : world) :
  exists w', rsa_key_copy h w = Returns (mk_rsa_key (m_rsa h)) w' /\
             heap w' = heap w /\ err_queue w' = err_queue w /\
             allocs_left w' = allocs_left w.
Proof.
  unfold rsa_key_copy, shared_ptr_copy, bind.
  destruct (m_rsa h) as [l|]; cbn; eexists; repeat split.
Qed.

End Blinding.

(** C10. [disable_blinding()] never throws, whatever the handle and
    whatever the state of the blinding; on a handle to a live record it
    returns and leaves the blinding off. [enable_blinding], unlike it,
    throws when the blinding cannot be allocated. *)
Theorem disable_blinding_never_fails :
  (forall (h : rsa_key) (w w' : world) (e : exn),
      disable_blinding h w <> Throws e w') /\
  (forall (h : rsa_key) (w : world) (r : RSA),
      refers_to w h r ->
      exists w', disable_blinding h w = Returns tt w' /\
                 refers_to w' h (set_blinding false r)) /\
  (forall (h : rsa_key) (w : world) (r : RSA) (ctx : option BN_CTX),
      refers_to w h r -> allocs_left w = O ->
      exists w', enable_blinding h ctx w
                 = Throws (cryptographic_exception
                             (head (err_queue w ++ [ERR_R_MALLOC_FAILURE])))
                          w').
Proof.
  split; [|split].
  - intros h w w' e. apply RSA_blinding_off_no_throw.
  - intros h w r (l & Hl & Hr). unfold disable_blinding. rewrite Hl.
    rewrite (RSA_blinding_off_live _ _ _ Hr). eexists. split; [reflexivity|].
    exists l. split; [exact Hl|]. cbn [heap set_heap].
    now apply lookup_alter_live.
  - intros h w r ctx (l & Hl & Hr) Hmem.
    rewrite (enable_blinding_live w l r h ctx Hl Hr), Hmem. eauto.
Qed.

(** Both calls on the 96-bit key, the second with no memory left. *)
Lemma disable_blinding_on_key96 :
  (exists w', disable_blinding handle1 (world_with key96) = Returns tt w' /\
              refers_to w' handle1 (set_blinding false key96)) /\
  (exists w', enable_blinding handle1 None
                (set_allocs_left 0 (world_with key96))
              = Throws (cryptographic_exception
                          (head (err_queue
                                   (set_allocs_left 0 (world_with key96))
                                 ++ [ERR_R_MALLOC_FAILURE]))) w').
Proof.
  destruct disable_blinding_never_fails as (_ & Hoff & Hon). split.
  - apply Hoff. apply refers_handle1.
  - apply (Hon handle1 (set_allocs_left 0 (world_with key96)) key96 None).
    + exists 1%positive. split; reflexivity.
    + reflexivity.
Defined.

(** C3. A copy of a handle refers to the same record as the handle and
    compares equal to it; and when blinding is enabled through either
    of the two, the record seen through the other has it enabled. *)
Theorem copy_shares_record (h : rsa_key) (w : world) :
  exists h' w',
    rsa_key_copy h w = Returns h' w' /\
    raw h' = raw h /\
    operator_eq h' h = true /\
    (forall r, refers_to w h r -> refers_to w' h r /\ refers_to w' h' r) /\
    (forall ctx w'',
        enable_blinding h' ctx w' = Returns tt w'' ->
        exists r, refers_to w'' h r /\ rsa_blinding r = true) /\
    (forall ctx w'',
        enable_blinding h ctx w' = Returns tt w'' ->
        exists r, refers_to w'' h' r /\ rsa_blinding r = true).
Proof.
  destruct (rsa_key_copy_spec h w) as (w' & Hcopy & Hheap & _).
  exists (mk_rsa_key (m_rsa h)), w'. split; [exact Hcopy|].
  split; [reflexivity|]. split.
  { unfold operator_eq. now apply bool_decide_eq_true. }
  split; [|split].
  - intros r (l & Hl & Hr). split; exists l; rewrite Hheap; auto.
  - intros ctx w'' Hen.
    apply enable_blinding_inv in Hen as (l & r & Hl & _ & Hr').
    exists (set_blinding true r). split; [|reflexivity]. exists l. auto.
  - intros ctx w'' Hen.
    apply enable_blinding_inv in Hen as (l & r & Hl & _ & Hr').
    exists (set_blinding true r). split; [|reflexivity]. exists l. auto.
Qed.

(** Blinding enabled through a copy of the handle of the 96-bit key. *)
Lemma copy_shares_blinding_key96 :
  exists h' w' w'',
    rsa_key_copy handle1 (world_with key96) = Returns h' w' /\
    operator_eq h' handle1 = true /\
    enable_blinding h' None w' = Returns tt w'' /\
    exists r, refers_to w'' handle1 r /\ rsa_blinding r = true.
Proof.
  destruct (copy_shares_record handle1 (world_with key96))
    as (h' & w' & Hcopy & Hraw & Heq & Hsame & Hen & _).
  destruct (Hsame key96 (refers_handle1 key96)) as [_ (l & Hl & Hr)].
  assert (Hmem : allocs_left w' = 1%nat).
  { destruct (rsa_key_copy_spec handle1 (world_with key96))
      as (w1 & Hcopy1 & _ & _ & Hmem).
    rewrite Hcopy in Hcopy1. injection Hcopy1 as _ <-. exact Hmem. }
  pose proof (enable_blinding_live w' l key96 h' None Hl Hr) as Hlive.
  rewrite Hmem in Hlive.
  eexists h', w', _. split; [exact Hcopy|]. split; [exact Heq|].
  split; [exact Hlive|]. exact (Hen _ _ Hlive).
Defined.

(* ================================================================== *)
(** * Equality *)

(** C4. [operator==] holds exactly when the two handles refer to the
    same record (the same pointer), and [operator!=] is its negation:
    two handles on different records are unequal whatever the records
    hold, and there are unequal handles on records with the same key
    parameters. *)
Theorem operator_eq_is_identity :
  (forall a b : rsa_key, operator_eq a b = true <-> raw a = raw b) /\
  (forall a b : rsa_key, operator_ne a b = negb (operator_eq a b)) /\
  (forall (w : world) (a b : rsa_key) (ra rb : RSA),
      refers_to w a ra -> refers_to w b rb ->
      raw a <> raw b -> operator_eq a b = false) /\
  (exists (w : world) (a b : rsa_key) (r : RSA),
      refers_to w a r /\ refers_to w b r /\ operator_eq a b = false).
Proof.
  split; [|split; [|split]].
  - intros a b. unfold operator_eq. apply bool_decide_eq_true.
  - reflexivity.
  - intros w a b ra rb _ _ Hne. unfold operator_eq.
    now apply bool_decide_eq_false.
  - exists (world_with_twins key96), handle1, handle2, key96.
    split; [|split].
    + exists 1%positive. split; reflexivity.
    + exists 2%positive. split; reflexivity.
    + reflexivity.
Qed.

(** A handle equals itself, and not its twin. *)
Lemma operator_eq_on_twins :
  operator_eq handle1 handle1 = true /\ operator_eq handle1 handle2 = false.
Proof.
  destruct operator_eq_is_identity as (Hiff & _ & Hne & _). split.
  - apply Hiff. reflexivity.
  - apply (Hne (world_with_twins key96) handle1 handle2 key96 key96).
    + exists 1%positive. split; reflexivity.
    + exists 2%positive. split; reflexivity.
    + discriminate.
Defined.

(* ================================================================== *)
(** * Construction and loading *)

Ltac never_null_cases := cbn; first [exact I | discriminate].

Lemma load_spec {source} (read : PEM_reader source) (s : source)
    (callback : pem_passphrase_callback_type) (w : world) :
  load read s callback w =
  match read s callback w with
  | (Some l, w') =>
      Returns (mk_rsa_key (Some l)) (set_use_count <[l := 1%nat]> w')
  | (None, w') =>
      Throws (cryptographic_exception (head (err_queue w')))
             (set_err_queue [] w')
  end.
Proof.
  unfold load, call_reader, bind at 1.
  destruct (read s callback w) as [[l|] w']; reflexivity.
Qed.

Lemma never_null_load {source} (read : PEM_reader source) s callback w :
  never_null (load read s callback w).
Proof.
  rewrite load_spec.
  destruct (read s callback w) as [[l|] w']; never_null_cases.
Qed.

Lemma rsa_key_new_spec (w : world) :
  rsa_key_new w =
  match allocs_left w with
  | O => Throws (cryptographic_exception
                   (head (err_queue w ++ [ERR_R_MALLOC_FAILURE])))
                (set_err_queue [] w)
  | S n =>
      let l := fresh (dom (heap w)) in
      Returns (mk_rsa_key (Some l))
        (set_use_count <[l := 1%nat]>
           (set_allocs_left n (set_heap <[l := RSA_empty]> w)))
  end.
Proof.
  unfold rsa_key_new, RSA_new, bind at 1.
  destruct (allocs_left w); reflexivity.
Qed.

Section Construction.

(** The readers and the generator of the library, with no assumption
    on what they do. *)
Variables PEM_read_bio_RSAPrivateKey PEM_read_bio_RSAPublicKey
          PEM_read_bio_RSA_PUBKEY : PEM_reader BIO.
Variables PEM_read_RSAPrivateKey PEM_read_RSAPublicKey
          PEM_read_RSA_PUBKEY : PEM_reader FILE.
Variable RSA_generate_key : Z -> Z -> world -> option loc * world.

(** C7. No construction returns a handle on an absent record: wrapping
    a null pointer throws [std::invalid_argument] at once, and the
    default constructor, the constructor from a shared pointer, every
    loader and the generation either throw or return a handle whose
    pointer is not null; they throw the exception of the library when
    the library hands them a null record. *)
Theorem no_handle_on_null_record :
  (forall w, rsa_key_of_ptr None w = Throws (invalid_argument "rsa") w) /\
  (forall p w, never_null (rsa_key_of_ptr p w)) /\
  (forall w, never_null (rsa_key_new w)) /\
  (forall w, allocs_left w = O ->
             throws_cryptographic_exception (rsa_key_new w)) /\
  (forall sp w, never_null (rsa_key_of_shared_ptr sp w)) /\
  (forall w, throws_cryptographic_exception (rsa_key_of_shared_ptr None w)) /\
  (forall bio file callback w,
      never_null (from_private_key PEM_read_bio_RSAPrivateKey
                    bio callback w) /\
      never_null (from_public_key PEM_read_bio_RSAPublicKey
                    bio callback w) /\
      never_null (from_certificate_public_key PEM_read_bio_RSA_PUBKEY
                    bio callback w) /\
      never_null (from_private_key_file PEM_read_RSAPrivateKey
                    file callback w) /\
      never_null (from_public_key_file PEM_read_RSAPublicKey
                    file callback w) /\
      never_null (from_certificate_public_key_file PEM_read_RSA_PUBKEY
                    file callback w)) /\
  (forall num exponent w,
      never_null (generate_private_key RSA_generate_key num exponent w)) /\
  (forall num exponent w,
      fst (RSA_generate_key num exponent w) = None ->
      throws_cryptographic_exception
        (generate_private_key RSA_generate_key num exponent w)).
Proof.
  split; [reflexivity|].
  split; [intros [l|] w; never_null_cases|].
  split.
  { intros w. rewrite rsa_key_new_spec.
    destruct (allocs_left w); never_null_cases. }
  split. { intros w Hmem. rewrite rsa_key_new_spec, Hmem. red. eauto. }
  split; [intros [l|] w; never_null_cases|].
  split. { intros w. red. cbn. eauto. }
  split. { intros bio file callback w. repeat split; apply never_null_load. }
  split.
  - intros num e w. rewrite generate_private_key_spec.
    destruct (RSA_generate_key num e w) as [[l|] w']; never_null_cases.
  - intros num e w Hnull. rewrite generate_private_key_spec.
    destruct (RSA_generate_key num e w) as [[l|] w']; [discriminate|].
    red. eauto.
Qed.


End Construction.

(** Constructions on the 96-bit world: a null pointer, a live one, a
    loader and the generator. *)
Lemma no_handle_on_null_record_examples :
  rsa_key_of_ptr None (world_with key96)
    = Throws (invalid_argument "rsa") (world_with key96) /\
  never_null (rsa_key_of_ptr (Some 1%positive) (world_with key96)) /\
  never_null (from_public_key public_key_reader [x01; x2a] None
                (world_with key96)) /\
  never_null (generate_private_key one_key_generator 96 65537
                (world_with key96)).
Proof.
  destruct (no_handle_on_null_record
              private_key_reader public_key_reader certificate_reader
              private_key_reader public_key_reader certificate_reader
              one_key_generator)
    as (Hnull & Hptr & _ & _ & _ & _ & Hload & Hgen & _).
  split; [apply Hnull|]. split; [apply Hptr|].
  split; [apply (Hload [x01; x2a] [] None (world_with key96))|apply Hgen].
Defined.



(* ================================================================== *)
(** * Shared ownership *)

Section Ownership.

Lemma world_eta (w : world) :
  mkWorld (heap w) (use_count w) (err_queue w) (allocs_left w) = w.
Proof. now destruct w. Qed.

Lemma destroy_shared (w : world) (h : rsa_key) (l : loc) (n : nat) :
  raw h = Some l -> use_count w !! l = Some (S (S n)) ->
  rsa_key_destroy h w = Returns tt (set_use_count <[l := S n]> w).
Proof.
  intros Hl Hc. unfold rsa_key_destroy, shared_ptr_destroy.
  unfold raw in Hl. now rewrite Hl, Hc.
Qed.

Lemma destroy_last (w : world) (h : rsa_key) (l : loc) :
  raw h = Some l -> use_count w !! l = Some 1%nat ->
  rsa_key_destroy h w
  = Returns tt (set_heap (delete l) (set_use_count (delete l) w)).
Proof.
  intros Hl Hc. unfold rsa_key_destroy, shared_ptr_destroy.
  unfold raw in Hl. now rewrite Hl, Hc.
Qed.

Lemma destroy_unowned (w : world) (h : rsa_key) (l : loc) :
  raw h = Some l -> use_count w !! l = None ->
  rsa_key_destroy h w = Undefined.
Proof.
  intros Hl Hc. unfold rsa_key_destroy, shared_ptr_destroy.
  unfold raw in Hl. now rewrite Hl, Hc.
Qed.

Lemma rsa_key_of_ptr_live (w : world) (l : loc) :
  rsa_key_of_ptr (Some l) w
  = Returns (mk_rsa_key (Some l)) (set_use_count <[l := 1%nat]> w).
Proof. reflexivity. Qed.

Lemma fresh_not_live (w : world) : heap w !! fresh (dom (heap w)) = None.
Proof. apply not_elem_of_dom. apply is_fresh. Qed.

End Ownership.

(** X1. The record is released exactly when the last handle on it is
    destroyed. With [n] handles sharing a live record, the destructors
    of fewer than [n] of them leave every record as it was and the
    share count lowered by their number; the destructors of all [n]
    release this record and no other. *)
Theorem record_released_with_last_handle (w : world) (l : loc) (r : RSA)
    (n : nat) (hs : list rsa_key) :
  heap w !! l = Some r -> use_count w !! l = Some n ->
  Forall (fun h => raw h = Some l) hs ->
  ((length hs < n)%nat ->
   exists w', destroy_handles hs w = Returns tt w' /\
              heap w' = heap w /\
              use_count w' !! l = Some (n - length hs)%nat) /\
  (length hs = n -> (1 <= n)%nat ->
   exists w', destroy_handles hs w = Returns tt w' /\
              heap w' = delete l (heap w) /\
              use_count w' !! l = None).
Proof.
  intros Hr Hc Hhs. revert w n Hr Hc.
  induction Hhs as [|h hs Hh Hhs IH]; intros w n Hr Hc.
  - split.
    + intros _. exists w. cbn. rewrite Nat.sub_0_r. auto.
    + cbn. intros <-. lia.
  - cbn [length destroy_handles]. split.
    + intros Hlt. destruct n as [|[|n]]; [lia|lia|].
      unfold bind. rewrite (destroy_shared w h l n Hh Hc).
      destruct (IH (set_use_count <[l := S n]> w) (S n)) as [Hless _].
      { exact Hr. }
      { cbn. apply lookup_insert_eq. }
      destruct Hless as (w' & Hd & Hheap & Hcount); [lia|].
      exists w'. split; [exact Hd|]. split; [exact Hheap|].
      rewrite Hcount. f_equal.
    + intros Hlen _. destruct n as [|[|n]]; [lia| |].
      * destruct hs; [|cbn in Hlen; lia].
        unfold bind. rewrite (destroy_last w h l Hh Hc). cbn.
        eexists. split; [reflexivity|]. cbn. split; [reflexivity|].
        apply lookup_delete_eq.
      * unfold bind. rewrite (destroy_shared w h l n Hh Hc).
        destruct (IH (set_use_count <[l := S n]> w) (S n)) as [_ Hall].
        { exact Hr. }
        { cbn. apply lookup_insert_eq. }
        destruct Hall as (w' & Hd & Hheap & Hcount); [lia|lia|].
        exists w'. auto.
Qed.

(** Three handles share the 96-bit key: it outlives two of them and is
    released with the third. *)
Lemma key96_released_with_third_handle :
  (exists w', destroy_handles [handle1; handle1]
                (set_use_count <[1%positive := 3%nat]> (world_with key96))
              = Returns tt w' /\
              heap w' = heap (set_use_count <[1%positive := 3%nat]>
                                (world_with key96)) /\
              use_count w' !! 1%positive
              = Some (3 - length [handle1; handle1])%nat) /\
  (exists w', destroy_handles [handle1; handle1; handle1]
                (set_use_count <[1%positive := 3%nat]> (world_with key96))
              = Returns tt w' /\
              heap w' = delete 1%positive
                          (heap (set_use_count <[1%positive := 3%nat]>
                                   (world_with key96))) /\
              use_count w' !! 1%positive = None).
Proof.
  split.
  - apply (record_released_with_last_handle
             (set_use_count <[1%positive := 3%nat]> (world_with key96))
             1%positive key96 3 [handle1; handle1]).
    + reflexivity.
    + reflexivity.
    + repeat constructor.
    + cbn. lia.
  - apply (record_released_with_last_handle
             (set_use_count <[1%positive := 3%nat]> (world_with key96))
             1%positive key96 3 [handle1; handle1; handle1]).
    + reflexivity.
    + reflexivity.
    + repeat constructor.
    + reflexivity.
    + lia.
Defined.

(** X2. Copying a handle and destroying the copy leaves the world exactly
    as it was: the copy counts one more owner and its destructor one
    less; the record is not touched. *)
Theorem copy_then_destroy_restores_world (w : world) (h : rsa_key)
    (l : loc) (n : nat) :
  raw h = Some l -> use_count w !! l = Some (S n) ->
  exists h' w',
    rsa_key_copy h w = Returns h' w' /\
    raw h' = Some l /\
    rsa_key_destroy h' w' = Returns tt w.
Proof.
  intros Hl Hc. unfold raw in Hl.
  exists (mk_rsa_key (Some l)), (set_use_count (alter S l) w).
  split; [|split; [reflexivity|]].
  - unfold rsa_key_copy, shared_ptr_copy. now rewrite Hl.
  - rewrite (destroy_shared _ _ l n); [|reflexivity|].
    + f_equal. rewrite <- (world_eta w) at 2.
      unfold set_use_count. cbn. f_equal.
      apply map_eq. intros i. destruct (decide (i = l)) as [->|Hne].
      * now rewrite lookup_insert_eq.
      * now rewrite lookup_insert_ne, lookup_alter_ne by congruence.
    + cbn. now rewrite lookup_alter_eq, Hc.
Qed.

(** A copy of the handle of the 96-bit key, made and destroyed. *)
Lemma copy_then_destroy_key96 :
  exists h' w',
    rsa_key_copy handle1 (world_with key96) = Returns h' w' /\
    raw h' = Some 1%positive /\
    rsa_key_destroy h' w' = Returns tt (world_with key96).
Proof.
  apply (copy_then_destroy_restores_world (world_with key96) handle1
           1%positive 0); reflexivity.
Defined.

Lemma delete_insert_fresh (m : gmap loc RSA) (l : loc) (r : RSA) :
  m !! l = None -> delete l (<[l := r]> m) = m.
Proof.
  intros Hl. apply map_eq. intros i. destruct (decide (i = l)) as [->|Hne].
  - now rewrite lookup_delete_eq.
  - now rewrite lookup_delete_ne, lookup_insert_ne by congruence.
Qed.

Lemma load_sole_owner {source} (read : PEM_reader source) :
  sole_owner read (load read).
Proof.
  intros s callback w l w0 Hread. rewrite load_spec, Hread.
  eexists _, _, _. split; [reflexivity|]. split; [reflexivity|].
  split; [reflexivity|]. split.
  - apply (destroy_last _ _ l); [reflexivity|]. cbn. apply lookup_insert_eq.
  - reflexivity.
Qed.

(** X3. A handle that is built and destroyed without having been copied
    takes its record with it. The record that [rsa_key()] allocated is
    released again, and the records are those there were before; the
    record whose pointer [rsa_key(RSA* rsa)] wrapped is released, for the
    handle took its ownership; and so is the record that a loader got
    from its reader. *)
Theorem handle_takes_its_record_with_it :
  (forall w, allocs_left w <> O ->
     exists h w1 w2,
       rsa_key_new w = Returns h w1 /\
       rsa_key_destroy h w1 = Returns tt w2 /\
       heap w2 = heap w) /\
  (forall w l r, heap w !! l = Some r ->
     exists h w1 w2,
       rsa_key_of_ptr (Some l) w = Returns h w1 /\
       refers_to w1 h r /\
       rsa_key_destroy h w1 = Returns tt w2 /\
       heap w2 = delete l (heap w)) /\
  (forall (bio_reader : PEM_reader BIO) (file_reader : PEM_reader FILE),
     sole_owner bio_reader (from_private_key bio_reader) /\
     sole_owner bio_reader (from_public_key bio_reader) /\
     sole_owner bio_reader (from_certificate_public_key bio_reader) /\
     sole_owner file_reader (from_private_key_file file_reader) /\
     sole_owner file_reader (from_public_key_file file_reader) /\
     sole_owner file_reader (from_certificate_public_key_file file_reader)).
Proof.
  split; [|split].
  - intros w Hmem. rewrite rsa_key_new_spec.
    destruct (allocs_left w) as [|n]; [congruence|]. cbn zeta.
    eexists _, _, _. split; [reflexivity|]. split.
    + apply (destroy_last _ _ (fresh (dom (heap w)))); [reflexivity|].
      cbn. apply lookup_insert_eq.
    + cbn. apply delete_insert_fresh, fresh_not_live.
  - intros w l r Hr. rewrite rsa_key_of_ptr_live.
    eexists _, _, _. split; [reflexivity|]. split.
    { exists l. split; [reflexivity|exact Hr]. }
    split.
    + apply (destroy_last _ _ l); [reflexivity|]. cbn. apply lookup_insert_eq.
    + reflexivity.
  - intros bio_reader file_reader. repeat split; apply load_sole_owner.
Qed.

(** The default constructor, the wrapping constructor and a loader,
    each followed by the destructor of the handle. *)
Lemma handles_of_key96_world_take_their_records :
  (exists h w1 w2,
     rsa_key_new (world_with key96) = Returns h w1 /\
     rsa_key_destroy h w1 = Returns tt w2 /\
     heap w2 = heap (world_with key96)) /\
  (exists h w1 w2,
     rsa_key_of_ptr (Some 1%positive) (world_with key96) = Returns h w1 /\
     refers_to w1 h key96 /\
     rsa_key_destroy h w1 = Returns tt w2 /\
     heap w2 = delete 1%positive (heap (world_with key96))) /\
  sole_owner public_key_reader (from_public_key public_key_reader).
Proof.
  destruct handle_takes_its_record_with_it as (Hnew & Hptr & Hload).
  split; [|split].
  - apply Hnew. discriminate.
  - apply Hptr. reflexivity.
  - apply (Hload public_key_reader public_key_reader).
Defined.



(** X5. [rsa_key()] never hands out a record that is in use: when it
    returns, its handle is on a new record with no key parameter set,
    which was not live before; every handle on a live record still
    refers to the record it referred to, and compares unequal to the
    new handle; the error queue is as it was. *)
Theorem default_constructed_handle_is_fresh (w : world) :
  allocs_left w <> O ->
  exists h w',
    rsa_key_new w = Returns h w' /\
    refers_to w' h RSA_empty /\
    (forall r, ~ refers_to w h r) /\
    err_queue w' = err_queue w /\
    (forall h0 r0, refers_to w h0 r0 ->
       refers_to w' h0 r0 /\
       operator_eq h h0 = false /\ operator_ne h h0 = true).
Proof.
  intros Hmem. rewrite rsa_key_new_spec.
  destruct (allocs_left w) as [|n]; [congruence|]. cbn zeta.
  set (l := fresh (dom (heap w))).
  pose proof (fresh_not_live w) as Hfresh. fold l in Hfresh.
  eexists _, _. split; [reflexivity|]. split.
  { exists l. split; [reflexivity|]. cbn. apply lookup_insert_eq. }
  split.
  { intros r (l' & Hl' & Hr). cbn in Hl'. congruence. }
  split; [reflexivity|].
  intros h0 r0 (l0 & Hl0 & Hr0).
  assert (Hne : l <> l0) by congruence.
  split.
  { exists l0. split; [exact Hl0|]. cbn. now rewrite lookup_insert_ne. }
  assert (Heq : operator_eq (mk_rsa_key (Some l)) h0 = false).
  { unfold operator_eq. apply bool_decide_eq_false. cbn. rewrite Hl0.
    congruence. }
  split; [exact Heq|]. unfold operator_ne.
  fold (operator_eq (mk_rsa_key (Some l)) h0). now rewrite Heq.
Qed.

(** A handle constructed beside the handle of the 96-bit key. *)
Lemma default_constructed_beside_key96 :
  exists h w',
    rsa_key_new (world_with key96) = Returns h w' /\
    refers_to w' h RSA_empty /\
    (forall r, ~ refers_to (world_with key96) h r) /\
    err_queue w' = err_queue (world_with key96) /\
    (forall h0 r0, refers_to (world_with key96) h0 r0 ->
       refers_to w' h0 r0 /\
       operator_eq h h0 = false /\ operator_ne h h0 = true).
Proof.
  apply (default_constructed_handle_is_fresh (world_with key96)).
  discriminate.
Defined.

(* ================================================================== *)
(** * What the calls leave alone *)

Section Frames.

Lemma fail_with_spec {A} (e : ERR) (w : world) :
  @fail_with A e w
  = Throws (cryptographic_exception (head (err_queue w ++ [e])))
           (set_err_queue [] w).
Proof. reflexivity. Qed.

Lemma sign_vector_throws (w : world) (h : rsa_key) (r : RSA)
    (buf : list byte) (type : Z) (e : ERR) :
  refers_to w h r -> RSA_sign type buf r = inl e ->
  sign_vector h buf type w
  = Throws (cryptographic_exception (head (err_queue w ++ [e])))
           (set_err_queue [] w).
Proof.
  intros Href He. rewrite (sign_vector_unfold h buf type w r Href).
  unfold sign, transform, bind. rewrite (deref_refers _ _ _ Href).
  rewrite repeat_length.
  destruct (Z.ltb_spec (Z.of_nat (Z.to_nat (RSA_size r))) (RSA_size r)).
  { pose proof (RSA_size_nonneg r). lia. }
  now rewrite He.
Qed.

Lemma set_blinding_parameters (b : bool) (r : RSA) :
  key_parameters (set_blinding b r) = key_parameters r.
Proof. reflexivity. Qed.

Lemma RSA_size_parameters (r r' : RSA) :
  key_parameters r' = key_parameters r -> RSA_size r' = RSA_size r.
Proof. unfold key_parameters, RSA_size. now intros [= -> _]. Qed.

(** What a change of the blinding of the record at [l] leaves of the
    record behind a pointer. *)
Lemma alter_blinding_lookup (m : gmap loc RSA) (b : bool) (l l0 : loc)
    (r0 : RSA) :
  m !! l0 = Some r0 ->
  exists r0', alter (set_blinding b) l m !! l0 = Some r0' /\
              key_parameters r0' = key_parameters r0 /\
              (l0 <> l -> r0' = r0).
Proof.
  intros H0. destruct (decide (l0 = l)) as [->|Hne].
  - exists (set_blinding b r0). rewrite lookup_alter_eq, H0.
    repeat split. congruence.
  - exists r0. rewrite lookup_alter_ne by congruence. auto.
Qed.

End Frames.





(** X8. [size()] is the least number of bytes that hold the modulus: on a
    handle to a live record with a modulus that is not zero, it returns
    the [s] with [256 ^ (s - 1) <= n < 256 ^ s], and leaves the world as
    it was. *)
Theorem size_is_the_byte_length_of_the_modulus (w : world) (h : rsa_key)
    (r : RSA) :
  refers_to w h r -> rsa_n r <> 0%N ->
  exists s,
    size h w = Returns s w /\ 1 <= s /\
    256 ^ (s - 1) <= Z.of_N (rsa_n r) < 256 ^ s.
Proof.
  intros Href Hn. exists (RSA_size r).
  split; [now apply size_refers|].
  assert (H1 : 1 <= RSA_size r).
  { unfold RSA_size, BN_num_bytes, BN_num_bits.
    assert (1 <= N.size (rsa_n r))%N by (destruct (rsa_n r); simpl; lia).
    pose proof (Z.div_mod (Z.of_N (N.size (rsa_n r)) + 7) 8 ltac:(lia)).
    pose proof (Z.mod_pos_bound (Z.of_N (N.size (rsa_n r)) + 7) 8
                  ltac:(lia)).
    lia. }
  split; [exact H1|].
  pose proof (modulus_lt_pow_size r) as Hup.
  pose proof (pow_pred_size_le_modulus r H1) as Hlo.
  apply N2Z.inj_lt in Hup. apply N2Z.inj_le in Hlo.
  rewrite N2Z.inj_pow in Hup, Hlo.
  rewrite nat_N_Z in Hup, Hlo. cbn [Z.of_N] in Hup, Hlo.
  rewrite Z2Nat.id in Hup by lia.
  rewrite Nat2Z.inj_sub, Z2Nat.id in Hlo by lia.
  split; [exact Hlo|exact Hup].
Qed.

(** The modulus of the 96-bit key takes 12 bytes. *)
Lemma size_of_key96_modulus :
  exists s,
    size handle1 (world_with key96) = Returns s (world_with key96) /\
    1 <= s /\
    256 ^ (s - 1) <= Z.of_N (rsa_n key96) < 256 ^ s.
Proof.
  apply (size_is_the_byte_length_of_the_modulus (world_with key96)
           handle1 key96).
  - apply refers_handle1.
  - discriminate.
Defined.

(* ================================================================== *)
(** * Blinding, once more *)

Section BlindingFrames.

Lemma disable_blinding_live (w : world) (h : rsa_key) (l : loc) (r : RSA) :
  raw h = Some l -> heap w !! l = Some r ->
  disable_blinding h w
  = Returns tt (set_heap (alter (set_blinding false) l) w).
Proof.
  intros Hl Hr. unfold disable_blinding. rewrite Hl.
  now apply (RSA_blinding_off_live w l r).
Qed.

Lemma disable_blinding_inv (w w' : world) (h : rsa_key) (a : unit) :
  disable_blinding h w = Returns a w' ->
  exists l r, raw h = Some l /\ heap w !! l = Some r /\
              w' = set_heap (alter (set_blinding false) l) w.
Proof.
  unfold disable_blinding, RSA_blinding_off, bind, deref.
  destruct (raw h) as [l|]; [|discriminate].
  destruct (heap w !! l) as [r|] eqn:Hr; [|discriminate].
  intros [= _ <-]. eauto.
Qed.

(** Turning the blinding off where it is off changes nothing. *)
Lemma alter_blinding_off_id (m : gmap loc RSA) (l : loc) (r : RSA) :
  m !! l = Some r -> rsa_blinding r = false ->
  alter (set_blinding false) l m = m.
Proof.
  intros Hr Hb. apply map_eq. intros i.
  destruct (decide (i = l)) as [->|Hne].
  - rewrite lookup_alter_eq, Hr. cbn. f_equal.
    destruct r; cbn in *; now subst.
  - now rewrite lookup_alter_ne by congruence.
Qed.

Lemma alter_blinding_twice (m : gmap loc RSA) (b b' : bool) (l : loc) :
  alter (set_blinding b) l (alter (set_blinding b') l m)
  = alter (set_blinding b) l m.
Proof.
  apply map_eq. intros i. destruct (decide (i = l)) as [->|Hne].
  - rewrite !lookup_alter_eq. now destruct (m !! l).
  - now rewrite !lookup_alter_ne by congruence.
Qed.

End BlindingFrames.





(* ================================================================== *)
(** * Storing and printing *)

Lemma store_follows_library {sink} (call : world -> Z * sink * world)
    (w : world) :
  follows_library call (store call) w.
Proof.
  unfold follows_library, store.
  destruct (call w) as [[result s] w']. cbn [fst snd].
  split; [reflexivity|]. split.
  - intros ->. cbn. red. eauto.
  - intros Hne. destruct (Z.eqb_spec result 0); [contradiction|reflexivity].
Qed.

Lemma store_returns_inv {sink} (call : world -> Z * sink * world)
    (w w1 : world) (s : sink) :
  store call w = (s, Returns tt w1) ->
  exists result, call w = (result, s, w1) /\ result <> 0.
Proof.
  unfold store. destruct (call w) as [[result s'] w'].
  destruct (Z.eqb_spec result 0) as [->|Hne]; cbn.
  - intros [=].
  - intros [= -> ->]. eauto.
Qed.

Lemma int_of_size_t_small (n : Z) :
  0 <= n < 2 ^ 31 -> int_of_size_t n = n.
Proof. intros Hn. unfold int_of_size_t. rewrite Z.mod_small; lia. Qed.

Section Storing.

(** The writers and the printers of the library, with no assumption on
    what they do. *)
Variable PEM_write_bio_RSAPrivateKey : PEM_private_key_writer BIO.
Variables PEM_write_bio_RSAPublicKey PEM_write_bio_RSA_PUBKEY
  : PEM_public_key_writer BIO.
Variable PEM_write_RSAPrivateKey : PEM_private_key_writer FILE.
Variables PEM_write_RSAPublicKey PEM_write_RSA_PUBKEY
  : PEM_public_key_writer FILE.
Variable RSA_print : RSA_printer BIO.
Variable RSA_print_fp : RSA_printer FILE.


End Storing.


(** ** Storing a key and loading it again *)

Section PlainCodec.

Lemma num_bytes_bound (a : BIGNUM) :
  (a < 256 ^ N.of_nat (Z.to_nat (BN_num_bytes a)))%N.
Proof.
  exact (modulus_lt_pow_size
           (mkRSA a 0%N None None None None None None false)).
Qed.

Lemma decode_encode_bn (a : BIGNUM) (rest : list byte) :
  decode_bn (encode_bn a ++ rest) = Some (a, rest).
Proof.
  unfold decode_bn, encode_bn. set (k := Z.to_nat (BN_num_bytes a)).
  rewrite <- app_assoc. cbn [app]. rewrite skip_ff_repeat.
  assert (Hlen : length (BN_bn2binpad a k) = k) by apply length_bn2binpad.
  destruct (Nat.ltb_spec (length (BN_bn2binpad a k ++ rest)) k) as [Hlt|_].
  { rewrite length_app in Hlt. lia. }
  pose proof (take_app_length (BN_bn2binpad a k) rest) as Hfirst.
  pose proof (drop_app_length (BN_bn2binpad a k) rest) as Hskip.
  rewrite Hlen in Hfirst, Hskip. rewrite Hfirst, Hskip.
  rewrite bin2bn_bn2binpad by apply num_bytes_bound. reflexivity.
Qed.

Lemma plain_reader_reads_back : reads_back plain_writer plain_reader.
Proof.
  intros l r w result pem w1 callback Hr. unfold plain_writer.
  rewrite Hr. intros [= <- <- <-] _. split; [reflexivity|].
  unfold plain_reader. cbn [app].
  rewrite decode_encode_bn.
  rewrite <- (app_nil_r (encode_bn (rsa_e r))), decode_encode_bn.
  eexists _, _. split; [reflexivity|]. split.
  - apply not_elem_of_dom, is_fresh.
  - reflexivity.
Qed.

End PlainCodec.



(* ================================================================== *)
(** * What the public transform accepts *)

Section Acceptance.

Lemma skip_ff_spec (s : list byte) :
  s = repeat xff (fst (skip_ff s)) ++ snd (skip_ff s).
Proof.
  induction s as [|b s IH]; [reflexivity|].
  destruct (Byte.byte_eq_dec b xff) as [->|Hb].
  - cbn [skip_ff]. destruct (skip_ff s) as [i rest]. cbn in *. now f_equal.
  - destruct b; try reflexivity. congruence.
Qed.

(** A block that passes the check is the block that the padding makes
    of its data for the length of the block. *)
Lemma padding_add_of_check (em data : list byte) :
  RSA_padding_check_PKCS1_type_1 em = Some data ->
  RSA_padding_add_PKCS1_type_1 (length em) data = Some em.
Proof.
  unfold RSA_padding_check_PKCS1_type_1.
  destruct em as [|b0 em']; [discriminate|].
  destruct b0; try discriminate.
  destruct em' as [|b1 ps]; [discriminate|].
  destruct b1; try discriminate.
  pose proof (skip_ff_spec ps) as Hps.
  destruct (skip_ff ps) as [i rest]. cbn [fst snd] in Hps.
  destruct rest as [|b rest]; [discriminate|].
  destruct b; try discriminate.
  destruct (Nat.ltb_spec i 8); [discriminate|]. intros [= ->].
  unfold RSA_padding_add_PKCS1_type_1, RSA_PKCS1_PADDING_SIZE.
  assert (Hlen : length ps = (i + S (length data))%nat).
  { rewrite Hps at 1. rewrite length_app, repeat_length. reflexivity. }
  cbn [length]. rewrite Hlen.
  destruct (Nat.ltb_spec (S (S (i + S (length data)))) (length data + 11));
    [lia|].
  replace (S (S (i + S (length data))) - 3 - length data)%nat with i by lia.
  now rewrite <- Hps.
Qed.

Lemma mod_exp_inverse_public (r : RSA) (p q d f : BIGNUM) :
  Z.prime (Z.of_N p) -> Z.prime (Z.of_N q) -> p <> q ->
  rsa_n r = (p * q)%N ->
  (Z.of_N d * Z.of_N (rsa_e r)) mod Z.lcm (Z.of_N p - 1) (Z.of_N q - 1) = 1 ->
  (f < rsa_n r)%N ->
  BN_mod_exp (BN_mod_exp f (rsa_e r) (rsa_n r)) d (rsa_n r) = f.
Proof.
  intros Hp Hq Hpq Hn Hde Hf.
  pose proof (modulus_of_consistent r p q Hp Hq Hn) as Hn0.
  apply N2Z.inj. rewrite !BN_mod_exp_spec by assumption.
  rewrite Z.mod_pow_l, <- Z.pow_mul_r by lia.
  rewrite Z.mul_comm in Hde.
  rewrite Hn, N2Z.inj_mul.
  apply rsa_exponents_inverse; auto; try lia.
Qed.

(** [RSA_public_decrypt] takes only what [RSA_private_encrypt] makes:
    on a consistent key with two distinct primes, a block of the size
    of the modulus that decrypts to [m] is the encryption of [m]. *)
Lemma RSA_public_decrypt_private_encrypt (r : RSA) (c m : list byte) :
  consistent r -> distinct_primes r ->
  Z.of_nat (length c) = RSA_size r ->
  RSA_public_decrypt c r RSA_PKCS1_PADDING = inr m ->
  RSA_private_encrypt m r RSA_PKCS1_PADDING = inr c.
Proof.
  intros (p & q & d & Ep & Eq & Ed & Hp & Hq & Hn & Hde & _) Hdist Hclen.
  unfold distinct_primes in Hdist. rewrite Ep, Eq in Hdist.
  assert (Hpq : p <> q) by congruence.
  pose proof (modulus_of_consistent r p q Hp Hq Hn) as Hn0.
  assert (Hnum : Z.to_nat (RSA_size r) = length c) by lia.
  unfold RSA_public_decrypt, RSA_private_encrypt. rewrite Hnum.
  rewrite Nat.ltb_irrefl.
  destruct (N.leb_spec (rsa_n r) (BN_bin2bn c)) as [|Hc]; [discriminate|].
  cbn [Z.eqb RSA_PKCS1_PADDING Pos.eqb].
  set (em := BN_bn2binpad (BN_mod_exp (BN_bin2bn c) (rsa_e r) (rsa_n r))
               (length c)).
  destruct (RSA_padding_check_PKCS1_type_1 em) as [data|] eqn:Hcheck;
    [|discriminate].
  intros [= ->].
  apply padding_add_of_check in Hcheck.
  assert (Hemlen : length em = length c) by apply length_bn2binpad.
  rewrite Hemlen in Hcheck. rewrite Hcheck.
  pose proof (BN_mod_exp_lt (BN_bin2bn c) (rsa_e r) (rsa_n r) Hn0) as Hlt.
  assert (Hem : BN_bin2bn em = BN_mod_exp (BN_bin2bn c) (rsa_e r) (rsa_n r)).
  { apply bin2bn_bn2binpad. eapply N.lt_trans; [exact Hlt|].
    rewrite <- Hnum. apply modulus_lt_pow_size. }
  rewrite Hem.
  destruct (N.leb_spec (rsa_n r)
              (BN_mod_exp (BN_bin2bn c) (rsa_e r) (rsa_n r))); [lia|].
  rewrite Ed. f_equal.
  rewrite (mod_exp_inverse_public r p q d) by assumption.
  apply bn2binpad_bin2bn.
Qed.

(** [RSA_verify] takes only the signature that [RSA_sign] makes. *)
Lemma RSA_verify_sign (r : RSA) (type : Z) (m s : list byte) :
  consistent r -> distinct_primes r ->
  RSA_verify type m s r = inr tt -> RSA_sign type m r = inr s.
Proof.
  intros Hc Hd. unfold RSA_verify.
  destruct (Z.eqb_spec (Z.of_nat (length s)) (RSA_size r)) as [Hlen|];
    [|discriminate]. cbn [negb].
  destruct (RSA_public_decrypt s r RSA_PKCS1_PADDING) as [e|di] eqn:Hdec;
    [discriminate|].
  destruct (encode_digest_info type m) as [e|di'] eqn:Henc; [discriminate|].
  unfold bytes_eqb.
  destruct (List.list_eq_dec Byte.byte_eq_dec di di') as [->|];
    [|discriminate].
  intros _. unfold RSA_sign. rewrite Henc.
  pose proof (RSA_public_decrypt_private_encrypt r s di' Hc Hd Hlen Hdec)
    as Henc'.
  destruct (Z.ltb_spec (RSA_size r - Z.of_nat RSA_PKCS1_PADDING_SIZE)
              (Z.of_nat (length di'))) as [Hbig|]; [|exact Henc'].
  exfalso. revert Henc'. unfold RSA_private_encrypt.
  cbn [Z.eqb RSA_PKCS1_PADDING Pos.eqb].
  unfold RSA_padding_add_PKCS1_type_1.
  destruct (Nat.ltb_spec (Z.to_nat (RSA_size r))
              (length di' + RSA_PKCS1_PADDING_SIZE)); [discriminate|lia].
Qed.

(** The [DigestInfo] tells the algorithm and the digest. *)
Lemma encode_digest_info_inj (type type' : Z) (m m' di : list byte) :
  encode_digest_info type m = inr di ->
  encode_digest_info type' m' = inr di ->
  type' = type /\ m' = m.
Proof.
  unfold encode_digest_info, digest_info, NID_md5, NID_sha1, NID_ripemd160.
  destruct (Z.eqb_spec type 4) as [->|_];
    [|destruct (Z.eqb_spec type 64) as [->|_];
      [|destruct (Z.eqb_spec type 117) as [->|_]; [|discriminate]]];
  (destruct (Z.eqb_spec type' 4) as [->|_];
    [|destruct (Z.eqb_spec type' 64) as [->|_];
      [|destruct (Z.eqb_spec type' 117) as [->|_]; [|discriminate]]]);
  destruct (_ =? _)%nat; try discriminate;
  destruct (_ =? _)%nat; try discriminate;
  intros [= <-]; cbn [app]; intros [= ->]; auto.
Qed.

End Acceptance.

(** X13. [public_decrypt] takes only what [private_encrypt] makes. On a
    handle to a consistent key with two distinct primes, when
    [public_decrypt] with PKCS #1 v1.5 padding returns [n] bytes for an
    input of [size()] bytes, [private_encrypt] of these [n] bytes on the
    same key returns that input: no other block of that size decrypts
    to them. *)
Theorem public_decrypt_accepts_only_private_encrypt (w w' : world)
    (h : rsa_key) (r : RSA) (c out out' out1 : list byte) (n : Z) :
  refers_to w h r -> consistent r -> distinct_primes r ->
  Z.of_nat (length c) = RSA_size r ->
  RSA_size r <= Z.of_nat (length out1) ->
  public_decrypt h out c RSA_PKCS1_PADDING w = Returns (out', n) w' ->
  w' = w /\
  private_encrypt h out1 (firstn (Z.to_nat n) out') RSA_PKCS1_PADDING w
  = Returns (write_buffer out1 c, RSA_size r) w.
Proof.
  intros Href Hc Hd Hclen Hout1 Hdec. unfold public_decrypt in Hdec.
  apply transform_inv in Hdec
    as (r' & m & Href' & _ & Hm & -> & -> & ->).
  rewrite (refers_to_unique _ _ _ _ Href' Href) in *.
  split; [reflexivity|].
  rewrite Nat2Z.id, firstn_write_buffer.
  pose proof (RSA_public_decrypt_private_encrypt r c m Hc Hd Hclen Hm)
    as Henc.
  unfold private_encrypt. rewrite <- Hclen.
  apply (transform_returns w h r); [exact Href|exact Hout1|exact Henc].
Qed.

(** X14. [verify] takes only the signature that [sign] makes. On a handle
    to a consistent key with two distinct primes, when [verify] returns
    for a signature, a digest and an algorithm, the convenience [sign]
    of that digest with that algorithm returns that very signature. *)
Theorem verify_accepts_only_the_signature (w w' : world) (h : rsa_key)
    (r : RSA) (signature digest : list byte) (type : Z) :
  refers_to w h r -> consistent r -> distinct_primes r ->
  verify h signature digest type w = Returns tt w' ->
  sign_vector h digest type w = Returns signature w.
Proof.
  intros Href Hc Hd. unfold verify, bind.
  rewrite (deref_refers _ _ _ Href).
  destruct (RSA_verify type digest signature r) as [e|[]] eqn:Hv;
    [discriminate|].
  intros _. apply (sign_vector_returns w h r); [exact Href|].
  now apply RSA_verify_sign.
Qed.

(** X15. A signature stands for one digest and one algorithm. On a handle
    to a consistent key with two distinct primes, when the convenience
    [sign] returned a signature for a digest and an algorithm, [verify]
    of this signature returns for that digest with that algorithm, and
    for no other digest and no other algorithm. *)
Theorem signature_binds_digest_and_algorithm (w : world) (h : rsa_key)
    (r : RSA) (signature digest digest' : list byte) (type type' : Z) :
  refers_to w h r -> consistent r -> distinct_primes r ->
  sign_vector h digest type w = Returns signature w ->
  (verify h signature digest' type' w = Returns tt w <->
   type' = type /\ digest' = digest).
Proof.
  intros Href Hc Hd Hsign.
  assert (Hs : RSA_sign type digest r = inr signature).
  { destruct (RSA_sign type digest r) as [e|s] eqn:Hs.
    - rewrite (sign_vector_throws w h r digest type e Href Hs) in Hsign.
      discriminate.
    - rewrite (sign_vector_returns w h r digest s type Href Hs) in Hsign.
      congruence. }
  assert (Hv : forall t m, verify h signature m t w = Returns tt w <->
                           RSA_verify t m signature r = inr tt).
  { intros t m. unfold verify, bind. rewrite (deref_refers _ _ _ Href).
    destruct (RSA_verify t m signature r) as [e|[]]; split;
      try reflexivity; discriminate. }
  rewrite Hv.
  revert Hs. unfold RSA_sign.
  destruct (encode_digest_info type digest) as [e|di] eqn:Hdi;
    [discriminate|].
  destruct (Z.ltb_spec (RSA_size r - Z.of_nat RSA_PKCS1_PADDING_SIZE)
              (Z.of_nat (length di))); [discriminate|].
  intros Hs.
  destruct (RSA_private_encrypt_public_decrypt r di Hc Hd ltac:(lia))
    as (c & Henc & Hclen & Hdec).
  assert (c = signature) by congruence. subst c.
  unfold RSA_verify. rewrite Hclen, Z.eqb_refl, Hdec. cbn [negb].
  split.
  - destruct (encode_digest_info type' digest') as [e|di'] eqn:Hdi';
      [discriminate|].
    unfold bytes_eqb.
    destruct (List.list_eq_dec Byte.byte_eq_dec di di') as [<-|];
      [|discriminate].
    intros _. exact (encode_digest_info_inj _ _ _ _ _ Hdi Hdi').
  - intros [-> ->]. now rewrite Hdi, bytes_eqb_refl.
Qed.

(** The block that the 96-bit key made of one byte is the only one of
    its size that decrypts to that byte. *)
Lemma public_decrypt_of_key96_ciphertext :
  world_with key96 = world_with key96 /\
  private_encrypt handle1 (repeat x00 12) (firstn (Z.to_nat 1) [x2a])
                  RSA_PKCS1_PADDING (world_with key96)
  = Returns (write_buffer (repeat x00 12) key96_ciphertext, RSA_size key96)
            (world_with key96).
Proof.
  apply (public_decrypt_accepts_only_private_encrypt
           (world_with key96) (world_with key96) handle1 key96
           key96_ciphertext [x00] [x2a] (repeat x00 12) 1).
  - apply refers_handle1.
  - exact key96_consistent.
  - exact key96_distinct.
  - reflexivity.
  - vm_compute. discriminate.
  - vm_compute. reflexivity.
Defined.

(** The signature that verifies under the 384-bit key is the one that
    [sign] returns. *)
Lemma verified_signature_of_key384 :
  sign_vector handle1 digest20 NID_sha1 (world_with key384)
  = Returns key384_signature (world_with key384).
Proof.
  apply (verify_accepts_only_the_signature
           (world_with key384) (world_with key384) handle1 key384
           key384_signature digest20 NID_sha1).
  - apply refers_handle1.
  - exact key384_consistent.
  - exact key384_distinct.
  - vm_compute. reflexivity.
Defined.

Lemma RSA_sign_key384_signature :
  RSA_sign NID_sha1 digest20 key384 = inr key384_signature.
Proof.
  apply RSA_verify_sign;
    [exact key384_consistent|exact key384_distinct|].
  vm_compute. reflexivity.
Qed.

Lemma sign_vector_key384_signature :
  sign_vector handle1 digest20 NID_sha1 (world_with key384)
  = Returns key384_signature (world_with key384).
Proof.
  apply (sign_vector_returns _ _ key384); [apply refers_handle1|].
  exact RSA_sign_key384_signature.
Qed.

(** The SHA-1 signature of the 384-bit key verifies as what it is,
    and not as a RIPEMD-160 signature of the same bytes. *)
Lemma signature_of_key384_binds_sha1 :
  (verify handle1 key384_signature digest20 NID_sha1 (world_with key384)
   = Returns tt (world_with key384) <->
   NID_sha1 = NID_sha1 /\ digest20 = digest20) /\
  (verify handle1 key384_signature digest20 NID_ripemd160 (world_with key384)
   = Returns tt (world_with key384) <->
   NID_ripemd160 = NID_sha1 /\ digest20 = digest20).
Proof.
  split;
    apply (signature_binds_digest_and_algorithm
             (world_with key384) handle1 key384 key384_signature);
    first [ apply refers_handle1 | exact key384_consistent
          | exact key384_distinct | exact sign_vector_key384_signature ].
Defined.

(* ================================================================== *)
(** * The vector of the convenience [sign] *)

Lemma skipn_repeat {A} (x : A) (k n : nat) :
  skipn k (repeat x n) = repeat x (n - k).
Proof.
  revert k. induction n as [|n IH]; intros [|k]; simpl; auto.
Qed.

(** X16. Only for an element type of one byte is the vector of the
    convenience [sign] the signature. For an element type of [width]
    bytes, the vector that it returns has as many elements as the
    signature has bytes: its bytes are the signature followed by zeros,
    [width] times the length of the signature in all. *)
Theorem sign_vector_has_size_elements (w : world) (h : rsa_key) (r : RSA)
    (buf s : list byte) (type : Z) (width : nat) :
  refers_to w h r -> (1 <= width)%nat ->
  RSA_sign type buf r = inr s ->
  sign_vector_of_width width h buf type w
  = Returns (s ++ repeat x00 ((width - 1) * length s)) w /\
  sign_vector_of_width 1 h buf type w = sign_vector h buf type w.
Proof.
  intros Href Hwidth Hs. pose proof (RSA_sign_length _ _ _ _ Hs) as Hlen.
  pose proof (RSA_size_nonneg r) as Hsize.
  split.
  - unfold sign_vector_of_width, bind at 1.
    rewrite (size_refers _ _ _ Href). unfold bind, sign.
    rewrite (transform_returns w h r RSA_size _ _ s Href);
      [|rewrite repeat_length; nia|exact Hs].
    unfold ret. cbn [fst snd]. f_equal.
    rewrite Nat2Z.id. unfold write_buffer, resize.
    rewrite skipn_repeat.
    replace (Z.to_nat (RSA_size r)) with (length s) by lia.
    replace (width * length s - length s)%nat
      with ((width - 1) * length s)%nat by nia.
    rewrite firstn_all2
      by (rewrite length_app, repeat_length; nia).
    rewrite length_app, repeat_length.
    replace (width * length s - (length s + (width - 1) * length s))%nat
      with 0%nat by nia.
    cbn [repeat]. now rewrite app_nil_r.
  - rewrite (sign_vector_unfold h buf type w r Href).
    unfold sign_vector_of_width, bind at 1.
    rewrite (size_refers _ _ _ Href). unfold bind. rewrite Nat.mul_1_l.
    destruct (sign h _ buf type w) as [written w'| |]; try reflexivity.
    unfold ret. now rewrite Nat.mul_1_l.
Qed.

(** The signature of the 384-bit key in a vector of 4-byte elements:
    48 elements, 192 bytes. *)
Lemma sign_vector_of_key384_in_words :
  sign_vector_of_width 4 handle1 digest20 NID_sha1 (world_with key384)
  = Returns (key384_signature
             ++ repeat x00 ((4 - 1) * length key384_signature))
            (world_with key384) /\
  sign_vector_of_width 1 handle1 digest20 NID_sha1 (world_with key384)
  = sign_vector handle1 digest20 NID_sha1 (world_with key384).
Proof.
  apply (sign_vector_has_size_elements (world_with key384) handle1 key384
           digest20 key384_signature NID_sha1 4).
  - apply refers_handle1.
  - lia.
  - exact RSA_sign_key384_signature.
Defined.
